(** * accel-brain-code: the AAE composer and the legacy perceptron demo

    A shallow embedding of
    - [Algorithmic-Composition/pycomposer/aae_composer.py] (class
      [AAEComposer]: [__init__], [learn], [extract_logs], [compose] and the
      two read-only properties), and
    - [deep-learning-by-means-of-design-pattern/test/nn_3_or_multi_layer_builder.py]
      (name resolution of the [__main__] block).

    Conventions.
    - Python [float]s that carry times ([time_fraction], [start], [end]) and
      array cells are the rationals [Q] they denote; they are compared with
      [Qeq_bool] / [Qcompare], as [==] compares values.  Adding two of them
      rounds: it is [Float64.add], never [Qplus].
    - Python [int]s are [Z]; array indices and shapes are [nat].
    - A method is a function from the receiver and the environment to an
      outcome, the receiver after the call and the environment after the
      call; a raised exception keeps whatever was mutated before it.
    - The ML frameworks (pygan, pydbm, numpy's generator, the MIDI file
      layer) are opaque: their behaviour is the [Framework] interface, and
      every call into them is recorded in the environment's trace. *)

From Stdlib Require Import QArith ZArith List Permutation Sorted Lia Lqa Bool.
From Stdlib Require Import Floats.SpecFloat.
From stdpp Require Import base option list gmap strings.

Close Scope Q_scope.
Local Open Scope string_scope.
Local Open Scope Z_scope.
Local Open Scope nat_scope.
Local Open Scope list_scope.

(* ===================================================================== *)
(** ** Python outcomes *)
(* ===================================================================== *)

Module Py.

(** The exceptions the embedded code can raise. *)
Inductive exn :=
| TypeError (msg : string)
| IndexError
| ValueError (msg : string)
| NameError (name : string)
| AttributeError (name : string).

Inductive result (A : Type) :=
| Ok (a : A)
| Raise (e : exn).
Arguments Ok {A} a.
Arguments Raise {A} e.

(** State and exceptions: the state survives a raise. *)
Definition M (S A : Type) : Type := S -> result A * S.

Definition ret {S A} (a : A) : M S A := fun s => (Ok a, s).
Definition raise {S A} (e : exn) : M S A := fun s => (Raise e, s).
Definition bind {S A B} (m : M S A) (k : A -> M S B) : M S B :=
  fun s => match m s with
           | (Ok a, s') => k a s'
           | (Raise e, s') => (Raise e, s')
           end.
Definition get {S} : M S S := fun s => (Ok s, s).
Definition modify {S} (f : S -> S) : M S unit := fun s => (Ok tt, f s).
Definition lift {S A} (r : result A) : M S A := fun s => (r, s).

(** [for x in xs: body x] *)
Fixpoint for_ {S A} (xs : list A) (body : A -> M S unit) : M S unit :=
  match xs with
  | [] => ret tt
  | x :: xs' => bind (body x) (fun _ => for_ xs' body)
  end.

(** [range(n)] *)
Definition range (n : nat) : list nat := seq 0 n.

(** [xs[i]] on a Python list with a non-negative index. *)
Definition index {A} (xs : list A) (i : nat) : result A :=
  match nth_error xs i with
  | Some x => Ok x
  | None => Raise IndexError
  end.

(** [set(xs)]: every element is hashed first; an unhashable element
    raises.  The result keeps the first occurrence of each value (the
    iteration order of a real set is unspecified; only its size is used). *)
Fixpoint dedup_by {A} (eqb : A -> A -> bool) (xs : list A) : list A :=
  match xs with
  | [] => []
  | x :: xs' => x :: List.filter (fun y => negb (eqb x y)) (dedup_by eqb xs')
  end.

Fixpoint hash_all {A} (hash : A -> result Z) (xs : list A) : result unit :=
  match xs with
  | [] => Ok tt
  | x :: xs' => match hash x with
                | Ok _ => hash_all hash xs'
                | Raise e => Raise e
                end
  end.

(** A stable insertion sort: what [sort_values] does to the rows, for the
    order [leb] on the sort columns.  Rows with equal keys keep their
    order. *)
Fixpoint insert_by {A} (leb : A -> A -> bool) (x : A) (l : list A) : list A :=
  match l with
  | [] => [x]
  | y :: l' => if leb x y then x :: l else y :: insert_by leb x l'
  end.

Definition sort_by {A} (leb : A -> A -> bool) (l : list A) : list A :=
  foldr (insert_by leb) [] l.

Definition set_ {A} (hash : A -> result Z) (eqb : A -> A -> bool)
    (xs : list A) : result (list A) :=
  match hash_all hash xs with
  | Ok _ => Ok (dedup_by eqb xs)
  | Raise e => Raise e
  end.

End Py.

(* ===================================================================== *)
(** ** Python floats: double precision numbers, as the rationals they denote *)
(* ===================================================================== *)

Module Float64.

Definition prec : Z := 53.
Definition emax : Z := 1024.

Definition of_Z (z : Z) : spec_float := binary_normalize prec emax z 0 false.

(** The double nearest to a rational: the rational itself when it is the
    value of a double. *)
Definition of_Q (q : Q) : spec_float :=
  let d := Zpos (Qden q) in
  let k := Z.log2 d in
  if (2 ^ k =? d)%Z then binary_normalize prec emax (Qnum q) (- k) false
  else SFdiv prec emax (of_Z (Qnum q)) (of_Z d).

(** The value of a finite double, in lowest terms. *)
Definition to_Q (f : spec_float) : Q :=
  match f with
  | S754_finite s m e =>
      let z := if s then Zneg m else Zpos m in
      match e with
      | Zneg p => Qred (z # (2 ^ p))
      | _ => inject_Z (z * 2 ^ e)
      end
  | _ => 0%Q
  end.

(** A literal: [0.1] is [double (1 # 10)]. *)
Definition double (q : Q) : Q := to_Q (of_Q q).

(** [x + y] and [x * y] on floats, rounded to nearest, ties to even. *)
Definition add (x y : Q) : Q := to_Q (SFadd prec emax (of_Q x) (of_Q y)).

Definition mul (x y : Q) : Q := to_Q (SFmul prec emax (of_Q x) (of_Q y)).

End Float64.

Notation "x <- m ;; k" := (Py.bind m (fun x => k))
  (at level 100, m at next level, right associativity).
Notation "m ;;; k" := (Py.bind m (fun _ => k))
  (at level 100, right associativity).

(* ===================================================================== *)
(** ** Data of the composer *)
(* ===================================================================== *)

Module AAE.
Import Py.

(** Modelled from the spec: the "MIDI DataFrame" that
    [MidiController.extract] returns and [MidiController.save] takes
    ([pycomposer/midi_controller.py] is not in the source tree).  One row
    per note, with the columns [compose] builds: program, start, end,
    pitch, velocity. *)
Record note := Note {
  program : Z;
  start : Q;
  end_ : Q;
  pitch : Z;
  velocity : Z }.

Definition DataFrame := list note.

(** A column of a DataFrame, [df.program] or [df.velocity]: a pandas
    Series. *)
Definition Series := list Z.

(** [Series.__hash__] raises [TypeError]: pandas containers are mutable
    (the message is the one of pandas 0.x and 1.x). *)
Definition Series_hash (s : Series) : result Z :=
  Raise (TypeError "'Series' objects are mutable, thus they cannot be hashed").

Definition Series_eqb (a b : Series) : bool := bool_decide (a = b).

(** The arguments both bar samplers are built from. *)
Record sampler_args := SamplerArgs {
  sa_midi_df_list : list DataFrame;
  sa_batch_size : Z;
  sa_seq_len : Z;
  sa_time_fraction : Q;
  sa_min_pitch : Z;
  sa_max_pitch : Z }.

(** is-a [TrueSampler]: the default one, or one the caller built. *)
Inductive TrueSampler :=
| BarTrueSampler (a : sampler_args) (conditional_flag : bool)
| GivenTrueSampler (id : positive).

(** is-a [NoiseSampler]: the default one, or one the caller built, of
    which [compose] reads the attribute [program_list]. *)
Inductive NoiseSampler :=
| BarNoiseSampler (a : sampler_args)
| GivenNoiseSampler (id : positive) (program_list : list Z).

(** pydbm configuration objects, as the keyword arguments they are built
    from. *)
Inductive activation :=
| TanhFunction (batch_norm : bool)
| LogisticFunction.

Record CNNGraph := {
  activation_function : activation;
  filter_num : Z;
  cg_channel : Z;
  kernel_size : Z;
  cg_scale : Q;
  stride : Z;
  pad : Z }.

(** [Adam()] with its [dropout_rate] attribute. *)
Record Adam := { dropout_rate : Q }.

Record CAE := {
  cae_layerable_cnn_list : list CNNGraph;
  epochs : Z;
  cae_batch_size : Z;
  cae_learning_rate : Q;
  learning_attenuate_rate : Q;
  attenuate_epoch : Z;
  cae_opt_params : Adam;
  test_size_rate : Q;
  tol : Q }.

Record Generator := {
  g_batch_size : Z;
  g_learning_rate : Q;
  convolutional_auto_encoder : CAE;
  g_channel : Z;
  g_verbose_mode : bool }.

Record CNNOutputGraph := {
  og_hidden_dim : Z;
  output_dim : Z;
  activating_function : activation;
  og_scale : Q }.

Record Discriminator := {
  d_batch_size : Z;
  d_layerable_cnn_list : list CNNGraph;
  cnn_output_graph : CNNOutputGraph;
  d_opt_params : Adam;
  d_learning_rate : Q;
  d_verbose_mode : bool }.

(** is-a [DiscriminativeModel]. *)
Inductive DiscriminativeModel :=
| SeqCNNModel (d : Discriminator)
| GivenDiscriminativeModel (id : positive).

(** is-a [GANsValueFunction]. *)
Inductive GANsValueFunction :=
| MiniMax
| GivenValueFunction (id : positive).

Inductive GANs :=
| AdversarialAutoEncoders (gans_value_function : GANsValueFunction).

(** A generative model is a mutable object: [__init__] assigns its
    attribute [noise_sampler].  Objects live in a store and are named by
    their address, so that the caller and the composer share one object. *)
Inductive generator_body :=
| ConvolutionalAutoEncoder (g : Generator)
| GivenGenerativeModel (id : positive).

Record GenerativeModel := {
  body : generator_body;
  noise_sampler : option NoiseSampler }.

Definition ref := positive.
Abbreviation store := (gmap positive GenerativeModel).

(** [MidiController()]: it keeps no state of its own. *)
Inductive MidiController := MidiController_.

(** The array [draw()] returns: a rectangular 4-dimensional ndarray. *)
Record ndarray := {
  shape0 : nat;
  shape1 : nat;
  shape2 : nat;
  shape3 : nat;
  item : nat -> nat -> nat -> nat -> Q }.

(** The location and scale handed to [np.random.normal]: a number of the
    caller, or the statistic numpy computes over the extracted frames. *)
Inductive velocity_param :=
| GivenParam (q : Q)
| MeanOfMeans (velocity : list Series)
| StdOfStds (velocity : list Series).

(** A statistic numpy cannot compute is NaN: the mean of the means when
    there is no frame or a frame has no row, the standard deviation of the
    standard deviations ([Series.std()], one degree of freedom less) when
    there is no frame or a frame has fewer than two rows.  A number of the
    caller is a number. *)
Definition is_nan (p : velocity_param) : bool :=
  match p with
  | GivenParam _ => false
  | MeanOfMeans cols =>
      match cols with
      | [] => true
      | _ => existsb (fun c => Nat.eqb (length c) 0) cols
      end
  | StdOfStds cols =>
      match cols with
      | [] => true
      | _ => existsb (fun c => Nat.ltb (length c) 2) cols
      end
  end.

(** Only a number of the caller can be negative. *)
Definition is_negative (p : velocity_param) : bool :=
  match p with
  | GivenParam q => negb (Qle_bool 0 q)
  | _ => false
  end.

(** [int(np.random.normal(loc, scale))] returns for these parameters. *)
Definition can_sample (loc scale : velocity_param) : bool :=
  negb (is_negative scale) && negb (is_nan loc || is_nan scale).

(** A row of the frame [compose] hands to [save]: the note columns and the
    two helper columns [next_start] and [next_end] it adds on the way
    ([None] is NaN). *)
Record frame_row := {
  r_note : note;
  next_start : option Q;
  next_end : option Q }.

(** Calls into the frameworks, in the order they happen. *)
Inductive event :=
| EvDraw (generative_model : ref)
| EvNormal (loc scale : velocity_param)
| EvTrain (GAN : GANs) (true_sampler : TrueSampler) (generative_model : ref)
    (discriminative_model : DiscriminativeModel) (iter_n k_step : Z)
| EvExtractLogs (GAN : GANs)
| EvSave (file_path : string) (note_df : list frame_row).

(** The opaque collaborators.  [hidden] is whatever they keep to
    themselves (weights, generator state, logs). *)
Class Framework := {
  hidden : Type;
  logs : Type;
  (** [MidiController().extract(midi_path)] *)
  extract : string -> DataFrame;
  (** [BarNoiseSampler(...).channel] and [.program_list] *)
  bar_channel : sampler_args -> Z;
  bar_program_list : sampler_args -> list Z;
  (** [generative_model.draw()] *)
  draw : GenerativeModel -> hidden -> ndarray * hidden;
  (** [int(np.random.normal(loc=..., scale=...))] where the scale is not
      negative: the sample, cut to an integer when it is a number *)
  normal_int : velocity_param -> velocity_param -> hidden -> Z * hidden;
  (** [GAN.train(true_sampler, generative_model, discriminative_model,
      iter_n=..., k_step=...)]: free to mutate every object it is given. *)
  train : GANs -> TrueSampler -> ref -> DiscriminativeModel -> Z -> Z ->
          store * hidden -> (ref * DiscriminativeModel) * (store * hidden);
  (** [GAN.extract_logs_tuple()] *)
  extract_logs_tuple : GANs -> hidden -> logs * hidden }.

Section WithFramework.
Context `{F : Framework}.

(** Everything outside the composer. *)
Record env := Env {
  heap : store;
  hid : hidden;
  trace : list event }.

Definition program_list_of (ns : NoiseSampler) : list Z :=
  match ns with
  | BarNoiseSampler a => bar_program_list a
  | GivenNoiseSampler _ pl => pl
  end.

(** The instance attributes [__init__] assigns. *)
Record AAEComposer := {
  __midi_controller : MidiController;
  __midi_df_list : list DataFrame;
  __noise_sampler : NoiseSampler;
  __true_sampler : TrueSampler;
  __generative_model : ref;
  __discriminative_model : DiscriminativeModel;
  __GAN : GANs;
  __time_fraction : Q;
  __min_pitch : Z;
  __max_pitch : Z }.

(* ----------------------------------------------------------------- *)
(** *** [__init__] *)

(** A new object in the store, at an address nobody holds. *)
Definition new (o : GenerativeModel) : M env ref :=
  fun e =>
    let l := fresh (dom (heap e)) in
    (Ok l, Env (<[l := o]> (heap e)) (hid e) (trace e)).

(** [g.noise_sampler = ns] *)
Definition set_noise_sampler (g : ref) (ns : NoiseSampler) : M env unit :=
  modify (fun e =>
    Env (alter (fun o => {| body := body o; noise_sampler := Some ns |})
           g (heap e))
        (hid e) (trace e)).

Definition __init__
    (midi_path_list : list string)
    (batch_size seq_len : Z)
    (time_fraction : Q)
    (min_pitch max_pitch : Z)
    (learning_rate : Q)
    (hidden_dim : option Z)
    (true_sampler : option TrueSampler)
    (noise_sampler : option NoiseSampler)
    (generative_model : option ref)
    (discriminative_model : option DiscriminativeModel)
    (gans_value_function : option GANsValueFunction)
  : M env AAEComposer :=
  let midi_controller := MidiController_ in
  let midi_df_list := map extract midi_path_list in
  (* The dimension of observed or feature points. *)
  let dim := (max_pitch - min_pitch)%Z in
  let scale := (1 # 100)%Q in
  let bar_args :=
    SamplerArgs midi_df_list batch_size seq_len time_fraction
      min_pitch max_pitch in
  let true_sampler :=
    match true_sampler with
    | None => BarTrueSampler bar_args false
    | Some ts => ts
    end in
  sampler_and_channel <-
    match noise_sampler with
    | None =>
        let noise_sampler := BarNoiseSampler bar_args in
        ret (noise_sampler, bar_channel bar_args)
    | Some noise_sampler =>
        let program_list := map (fun df => map program df) midi_df_list in
        program_list <- lift (set_ Series_hash Series_eqb program_list) ;;
        ret (noise_sampler, Z.of_nat (length program_list))
    end ;;
  let noise_sampler := fst sampler_and_channel in
  let channel := snd sampler_and_channel in
  generative_model <-
    match generative_model with
    | None =>
        let conv1 :=
          {| activation_function := TanhFunction false;
             filter_num := batch_size; cg_channel := channel;
             kernel_size := 3; cg_scale := scale; stride := 1; pad := 1 |} in
        let conv2 :=
          {| activation_function := TanhFunction false;
             filter_num := batch_size; cg_channel := batch_size;
             kernel_size := 3; cg_scale := scale; stride := 1; pad := 1 |} in
        (* [deconvolution_layer_list] is built here and never used. *)
        let opt_params := {| dropout_rate := 0 |} in
        let convolutional_auto_encoder :=
          {| cae_layerable_cnn_list := [conv1; conv2];
             epochs := 100;
             cae_batch_size := batch_size;
             cae_learning_rate := learning_rate;
             learning_attenuate_rate := (1 # 10)%Q;
             attenuate_epoch := 25;
             cae_opt_params := opt_params;
             test_size_rate := (3 # 10)%Q;
             tol := (1 # 1000000000000000)%Q |} in
        new {| body := ConvolutionalAutoEncoder
                 {| g_batch_size := batch_size;
                    g_learning_rate := learning_rate;
                    convolutional_auto_encoder := convolutional_auto_encoder;
                    g_channel := channel;
                    g_verbose_mode := false |};
               AAE.noise_sampler := None |}
    | Some g => ret g
    end ;;
  set_noise_sampler generative_model noise_sampler ;;;
  let discriminative_model :=
    match discriminative_model with
    | None =>
        let activation_function := TanhFunction true in
        let conv :=
          {| activation_function := activation_function;
             filter_num := batch_size; cg_channel := channel;
             kernel_size := 3; cg_scale := (1 # 1000)%Q;
             stride := 1; pad := 1 |} in
        let layerable_cnn_list := [conv] in
        let opt_params := {| dropout_rate := 0 |} in
        let hidden_dim :=
          match hidden_dim with
          | None => (channel * seq_len * dim)%Z
          | Some h => h
          end in
        let cnn_output_graph :=
          {| og_hidden_dim := hidden_dim; output_dim := 1;
             activating_function := LogisticFunction;
             og_scale := (1 # 100)%Q |} in
        SeqCNNModel
          {| d_batch_size := batch_size;
             d_layerable_cnn_list := layerable_cnn_list;
             cnn_output_graph := cnn_output_graph;
             d_opt_params := opt_params;
             d_learning_rate := learning_rate;
             d_verbose_mode := false |}
    | Some d => d
    end in
  let gans_value_function :=
    match gans_value_function with
    | None => MiniMax
    | Some v => v
    end in
  let GAN := AdversarialAutoEncoders gans_value_function in
  ret {| __midi_controller := midi_controller;
         __midi_df_list := midi_df_list;
         __noise_sampler := noise_sampler;
         __true_sampler := true_sampler;
         __generative_model := generative_model;
         __discriminative_model := discriminative_model;
         __GAN := GAN;
         __time_fraction := time_fraction;
         __min_pitch := min_pitch;
         __max_pitch := max_pitch |}.

(* ----------------------------------------------------------------- *)
(** *** Methods: the receiver is part of the state *)

Definition on_env {A} (m : M env A) : M (AAEComposer * env) A :=
  fun st => let (r, e') := m (snd st) in (r, (fst st, e')).

Definition self_ : M (AAEComposer * env) AAEComposer :=
  fun st => (Ok (fst st), st).

Definition set_models (g : ref) (d : DiscriminativeModel)
    (self : AAEComposer) : AAEComposer :=
  {| __midi_controller := __midi_controller self;
     __midi_df_list := __midi_df_list self;
     __noise_sampler := __noise_sampler self;
     __true_sampler := __true_sampler self;
     __generative_model := g;
     __discriminative_model := d;
     __GAN := __GAN self;
     __time_fraction := __time_fraction self;
     __min_pitch := __min_pitch self;
     __max_pitch := __max_pitch self |}.

(** [GAN.train(...)], recorded. *)
Definition call_train (GAN : GANs) (ts : TrueSampler) (g : ref)
    (d : DiscriminativeModel) (iter_n k_step : Z)
  : M env (ref * DiscriminativeModel) :=
  fun e =>
    let (models, out) := train GAN ts g d iter_n k_step (heap e, hid e) in
    (Ok models,
     Env (fst out) (snd out)
         (trace e ++ [EvTrain GAN ts g d iter_n k_step])).

Definition learn (iter_n k_step : Z) : M (AAEComposer * env) unit :=
  self <- self_ ;;
  models <- on_env (call_train (__GAN self) (__true_sampler self)
                      (__generative_model self)
                      (__discriminative_model self) iter_n k_step) ;;
  let generative_model := fst models in
  let discriminative_model := snd models in
  modify (fun st =>
    (set_models generative_model discriminative_model (fst st), snd st)).

(** [GAN.extract_logs_tuple()], recorded. *)
Definition call_extract_logs_tuple (GAN : GANs) : M env logs :=
  fun e =>
    let (l, h) := extract_logs_tuple GAN (hid e) in
    (Ok l, Env (heap e) h (trace e ++ [EvExtractLogs GAN])).

Definition extract_logs : M (AAEComposer * env) logs :=
  self <- self_ ;;
  on_env (call_extract_logs_tuple (__GAN self)).

(* ----------------------------------------------------------------- *)
(** *** [compose], first half: from the drawn array to the note list *)

(** [generative_model.draw()], recorded. *)
Definition call_draw (g : ref) : M env ndarray :=
  fun e =>
    match heap e !! g with
    | Some o =>
        let (arr, h) := draw o (hid e) in
        (Ok arr, Env (heap e) h (trace e ++ [EvDraw g]))
    | None => (Raise (AttributeError "draw"), e)
    end.

(** [np.where(generated_arr[batch, program_key] == 1)]: the index pairs
    of the cells equal to one, in row-major order. *)
Definition where_eq_1 (a : ndarray) (batch program_key : nat)
  : list (nat * nat) :=
  flat_map
    (fun s =>
       map (pair s)
         (List.filter
            (fun j => Qeq_bool (item a batch program_key s j) 1)
            (range (shape3 a))))
    (range (shape2 a)).

(** A row of [key_df], columns seq, pitch, p.  The index columns hold
    whole numbers. *)
Record key_row := {
  k_seq : nat;
  k_pitch : nat;
  k_p : Q }.

Definition key_df_of (a : ndarray) (batch program_key : nat)
  : list key_row :=
  map (fun sp =>
         {| k_seq := fst sp; k_pitch := snd sp;
            k_p := item a batch program_key (fst sp) (snd sp) |})
      (where_eq_1 a batch program_key).

(** [sort_values(by=["p"], ascending=False)] *)
Definition p_descending (r1 r2 : key_row) : bool :=
  Qle_bool (k_p r2) (k_p r1).

(** The local variables of [compose] that its loops update, next to the
    environment. *)
Record locals := {
  generated_list : list note;
  l_start : Q;
  l_end : Q;
  l_env : env }.

Definition append_note (program : Z) (pitch velocity : Z) : M locals unit :=
  modify (fun l =>
    {| generated_list :=
         generated_list l ++
           [Note program (l_start l) (l_end l) pitch velocity];
       l_start := l_start l; l_end := l_end l; l_env := l_env l |}).

(** [int(np.random.normal(loc=velocity_mean, scale=velocity_std))],
    recorded.  A negative scale makes [normal] raise before it samples; a
    NaN location or scale gives a NaN sample, on which [int] raises. *)
Definition call_normal (velocity_mean velocity_std : velocity_param)
  : M locals Z :=
  fun l =>
    let e := l_env l in
    let called h :=
      {| generated_list := generated_list l;
         l_start := l_start l; l_end := l_end l;
         l_env := Env (heap e) h
                    (trace e ++ [EvNormal velocity_mean velocity_std]) |} in
    if is_negative velocity_std then
      (Raise (ValueError "scale < 0"), called (hid e))
    else
      let (v, h) := normal_int velocity_mean velocity_std (hid e) in
      if is_nan velocity_mean || is_nan velocity_std then
        (Raise (ValueError "cannot convert float NaN to integer"), called h)
      else (Ok v, called h).

(** [start += time_fraction; end += time_fraction], on floats. *)
Definition advance (time_fraction : Q) : M locals unit :=
  modify (fun l =>
    {| generated_list := generated_list l;
       l_start := Float64.add (l_start l) time_fraction;
       l_end := Float64.add (l_end l) time_fraction;
       l_env := l_env l |}).

(** The body of the [program_key] loop. *)
Definition block (self : AAEComposer) (generated_arr : ndarray)
    (velocity_mean velocity_std : velocity_param)
    (batch program_key : nat) : M locals unit :=
  let key_df := key_df_of generated_arr batch program_key in
  let key_df := sort_by p_descending key_df in
  program <-
    lift (index (program_list_of (__noise_sampler self)) program_key) ;;
  for_ (range (shape2 generated_arr)) (fun seq =>
    let df := List.filter (fun r => k_seq r =? seq) key_df in
    for_ df (fun r =>
      let pitch := (Z.of_nat (k_pitch r) + __min_pitch self)%Z in
      velocity <- call_normal velocity_mean velocity_std ;;
      append_note program pitch velocity)) ;;;
  advance (__time_fraction self).

Definition compose_generate (self : AAEComposer)
    (velocity_mean velocity_std : option Q) : M env (list note) :=
  generated_arr <- call_draw (__generative_model self) ;;
  let velocity_mean :=
    match velocity_mean with
    | None => MeanOfMeans (map (map velocity) (__midi_df_list self))
    | Some q => GivenParam q
    end in
  let velocity_std :=
    match velocity_std with
    | None => StdOfStds (map (map velocity) (__midi_df_list self))
    | Some q => GivenParam q
    end in
  fun e =>
    let l0 := {| generated_list := []; l_start := 0;
                 l_end := __time_fraction self; l_env := e |} in
    let (r, l) :=
      for_ (range (shape0 generated_arr)) (fun batch =>
        for_ (range (shape1 generated_arr)) (fun program_key =>
          block self generated_arr velocity_mean velocity_std
            batch program_key)) l0 in
    match r with
    | Ok _ => (Ok (generated_list l), l_env l)
    | Raise ex => (Raise ex, l_env l)
    end.

(* ----------------------------------------------------------------- *)
(** *** [compose], second half: merging, sorting, saving *)

(** [drop_duplicates()] on the pitch column. *)
Definition drop_duplicates_pitch (ps : list Z) : list Z :=
  dedup_by Z.eqb ps.

(** [sort_values(by=["start", "end"])]: start first, end on ties. *)
Definition start_end_leb (a b : note) : bool :=
  match (start a ?= start b)%Q with
  | Lt => true
  | Gt => false
  | Eq => Qle_bool (end_ a) (end_ b)
  end.

(** The columns [next_start = start.shift(-1)] and
    [next_end = end.shift(-1)]: the values of the row below, NaN in the
    last row. *)
Fixpoint add_next (df : list note) : list frame_row :=
  match df with
  | [] => []
  | n :: df' =>
      {| r_note := n;
         next_start := start <$> head df';
         next_end := end_ <$> head df' |} :: add_next df'
  end.

Definition set_end (e : Q) (n : note) : note :=
  Note (program n) (start n) e (pitch n) (velocity n).

(** [df.loc[df.end == df.next_start, "end"] = df.loc[..., "next_end"]],
    row by row; a comparison with NaN is false. *)
Definition extend_end (r : frame_row) : frame_row :=
  match next_start r, next_end r with
  | Some ns, Some ne =>
      if Qeq_bool (end_ (r_note r)) ns
      then {| r_note := set_end ne (r_note r);
              next_start := next_start r; next_end := next_end r |}
      else r
  | _, _ => r
  end.

(** [drop_duplicates(["end"])]: the first row of each end value stays. *)
Definition same_end (a b : frame_row) : bool :=
  Qeq_bool (end_ (r_note a)) (end_ (r_note b)).

(** The body of [for pitch in pitch_arr]. *)
Definition pitch_group (generated_midi_df : list note) (pitch_ : Z)
  : list frame_row :=
  let df := List.filter (fun n => pitch n =? pitch_)%Z generated_midi_df in
  let df := sort_by start_end_leb df in
  let df := add_next df in
  let df := map extend_end df in
  dedup_by same_end df.

(** [pd.concat(df_list)] *)
Definition concat_frames (df_list : list (list frame_row))
  : result (list frame_row) :=
  match df_list with
  | [] => Raise (ValueError "No objects to concatenate")
  | _ => Ok (concat df_list)
  end.

(** [MidiController.save(file_path=..., note_df=...)], recorded. *)
Definition call_save (file_path : string) (note_df : list frame_row)
  : M env unit :=
  modify (fun e =>
    Env (heap e) (hid e) (trace e ++ [EvSave file_path note_df])).

Definition compose_save (file_path : string)
    (generated_midi_df : list note) : M env unit :=
  let pitch_arr := drop_duplicates_pitch (map pitch generated_midi_df) in
  let df_list := map (pitch_group generated_midi_df) pitch_arr in
  generated_midi_df <- lift (concat_frames df_list) ;;
  let generated_midi_df :=
    sort_by (fun a b => start_end_leb (r_note a) (r_note b))
      generated_midi_df in
  call_save file_path generated_midi_df.

Definition compose (file_path : string)
    (velocity_mean velocity_std : option Q) : M (AAEComposer * env) unit :=
  self <- self_ ;;
  on_env (generated_list <- compose_generate self velocity_mean velocity_std ;;
          compose_save file_path generated_list).

(* ----------------------------------------------------------------- *)
(** *** The read-only properties *)

(** [property(fget, fset)] *)
Record property (A : Type) := Property {
  fget : M (AAEComposer * env) A;
  fset : forall V : Type, V -> M (AAEComposer * env) unit }.
Arguments fget {A} _.
Arguments fset {A} _ {V} _.

Definition get_generative_model : M (AAEComposer * env) ref :=
  self <- self_ ;; ret (__generative_model self).

Definition set_readonly {V : Type} (value : V)
  : M (AAEComposer * env) unit :=
  raise (TypeError "This property must be read-only.").

Definition generative_model : property ref :=
  Property _ get_generative_model (@set_readonly).

Definition get_true_sampler : M (AAEComposer * env) TrueSampler :=
  self <- self_ ;; ret (__true_sampler self).

Definition true_sampler : property TrueSampler :=
  Property _ get_true_sampler (@set_readonly).

(** [composer.name] and [composer.name = value] on a property. *)
Definition read {A} (p : property A) : M (AAEComposer * env) A := fget p.
Definition assign {A V} (p : property A) (value : V)
  : M (AAEComposer * env) unit := fset p value.

End WithFramework.
End AAE.

(* ===================================================================== *)
(** ** The perceptron demonstration script: which names it can see *)
(* ===================================================================== *)

Module Demo.
Import Py.

(** Expressions, as far as name lookup goes.  Keyword arguments of a call
    stand with the positional ones, in source order. *)
#[warnings="-register-all"]
Inductive expr :=
| Name (id : string)
| Const
| Attribute (value : expr) (attr : string)
| Call (func : expr) (args : list expr)
| Subscript (value : expr) (slice : expr)
| ListE (elts : list expr)
| ListComp (elt : expr) (target : string) (iter : expr).

Inductive stmt :=
| ImportFrom (module : string) (name : string)
| ImportAs (module : string) (asname : string)
| Import (module : string)
| Assign (targets : list string) (value : expr)
| ExprStmt (value : expr).

(** The names an expression looks up, in evaluation order: the callee
    before its arguments, the iterable of a comprehension before its
    element, whose target is bound by the comprehension itself. *)
Fixpoint loads (e : expr) : list string :=
  match e with
  | Name id => [id]
  | Const => []
  | Attribute value _ => loads value
  | Call func args => loads func ++ flat_map loads args
  | Subscript value slice => loads value ++ loads slice
  | ListE elts => flat_map loads elts
  | ListComp elt target iter =>
      loads iter ++
      List.filter (fun x => negb (String.eqb x target)) (loads elt)
  end.

Definition scope := list string.

Definition bound (sc : scope) (x : string) : bool :=
  existsb (String.eqb x) sc.

(** Looking the names up one after the other; the first unbound one
    raises. *)
Fixpoint lookup_all (sc : scope) (xs : list string) : result unit :=
  match xs with
  | [] => Ok tt
  | x :: xs' => if bound sc x then lookup_all sc xs' else Raise (NameError x)
  end.

(** One statement.  The imports resolve and the calls return: only the
    lookup of names can fail here. *)
Definition exec (s : stmt) : M scope unit :=
  match s with
  | ImportFrom _ name => modify (cons name)
  | ImportAs _ asname => modify (cons asname)
  | Import module => modify (cons module)
  | Assign targets value =>
      sc <- get ;;
      lift (lookup_all sc (loads value)) ;;;
      modify (app targets)
  | ExprStmt value =>
      sc <- get ;;
      lift (lookup_all sc (loads value))
  end.

(** A block of numbered lines: the line that raised, with its exception,
    or [None] when the last line has run. *)
Fixpoint run (block : list (nat * stmt)) (sc : scope)
  : option (nat * exn) * scope :=
  match block with
  | [] => (None, sc)
  | (line, s) :: block' =>
      match exec s sc with
      | (Ok _, sc') => run block' sc'
      | (Raise e, sc') => (Some (line, e), sc')
      end
  end.

(** What the module sees before its first line. *)
Definition builtins : scope := ["__name__"; "len"; "print"].

(** The imports, lines 2 to 10. *)
Definition imports : list (nat * stmt) :=
  [ (2, ImportFrom "deeplearning.nn.builders.nn_3_layer_builder" "NN3LayerBuilder");
    (3, ImportFrom "deeplearning.nn.builders.nn_multi_layer_builder" "NNMultiLayerBuilder");
    (4, ImportFrom "deeplearning.activation.sigmoid_function" "SigmoidFunction");
    (5, ImportAs "numpy" "np");
    (6, Import "random");
    (7, ImportAs "pandas" "pd");
    (8, ImportFrom "pprint" "pprint");
    (9, ImportFrom "sklearn.datasets" "make_classification");
    (10, ImportFrom "sklearn.cross_validation" "train_test_split") ].

(** The names the imports bind: "the names it imports at the top". *)
Definition imported : list string :=
  flat_map (fun ls =>
              match snd ls with
              | ImportFrom _ n => [n]
              | ImportAs _ n => [n]
              | Import n => [n]
              | _ => []
              end) imports.

Definition sigmoids (n : nat) : expr :=
  ListE (repeat (Call (Name "SigmoidFunction") []) n).

Definition input_len : expr :=
  Call (Name "len") [Subscript (Name "traning_data_matrix") Const].

(** [nn.learn(traning_data_matrix, class_data_matrix, traning_count=...,
    learning_rate=0.05)] *)
Definition nn_learn : stmt :=
  ExprStmt (Call (Attribute (Name "nn") "learn")
              [Name "traning_data_matrix"; Name "class_data_matrix";
               Const; Const]).

Definition nn_evaluate : stmt :=
  Assign ["evaluate_result_dict"]
    (Call (Attribute (Name "nn") "evaluate_bool")
       [Name "test_data_matrix"; Name "test_class_data_matrix"]).

Definition append_result : stmt :=
  ExprStmt (Call (Attribute (Name "evaluate_data_list") "append")
              [Name "evaluate_result_dict"]).

(** The data preparation, lines 12 to 34. *)
Definition prepare : list (nat * stmt) :=
  [ (12, Assign ["data_tuple"]
           (Call (Name "make_classification")
              [Const; Const; Const; Const; Const]));
    (19, Assign ["data_tuple_x"; "data_tuple_y"] (Name "data_tuple"));
    (20, Assign ["traning_x"; "test_x"; "traning_y"; "test_y"]
           (Call (Name "train_test_split")
              [Name "data_tuple_x"; Name "data_tuple_y"; Const; Const]));
    (26, Assign ["traning_data_matrix"] (Name "traning_x"));
    (27, Assign ["class_data_list"] (Name "traning_y"));
    (28, Assign ["test_data_matrix"] (Name "test_x"));
    (29, Assign ["test_class_data_list"] (Name "test_y"));
    (31, Assign ["class_data_matrix"]
           (ListComp (ListE [Name "class_data"]) "class_data"
              (Name "class_data_list")));
    (32, Assign ["test_class_data_matrix"]
           (ListComp (ListE [Name "class_data"]) "class_data"
              (Name "test_class_data_list")));
    (34, Assign ["evaluate_data_list"] (ListE [])) ].

(** The three networks, lines 36 to 92. *)
Definition networks : list (nat * stmt) :=
  [ (36, Assign ["nn"]
           (Call (Name "NeuralNetwork")
              [Call (Name "NN3LayerBuilder") []; input_len; Const; Const;
               sigmoids 3]));
    (44, nn_learn);
    (50, nn_evaluate);
    (54, append_result);
    (56, Assign ["nn"]
           (Call (Name "NeuralNetwork")
              [Call (Name "NN3LayerBuilder") []; input_len; Const; Const;
               sigmoids 3]));
    (64, nn_learn);
    (70, nn_evaluate);
    (74, append_result);
    (76, Assign ["nn"]
           (Call (Name "NeuralNetwork")
              [Call (Name "NNMultiLayerBuilder") [];
               ListE [input_len; Const; Const; Const];
               sigmoids 4]));
    (82, nn_learn);
    (88, nn_evaluate);
    (92, append_result) ].

(** The evaluation table, lines 94 to 107. *)
Definition report : list (nat * stmt) :=
  [ (94, Assign ["evaluate_data"]
           (Call (Attribute (Name "pd") "DataFrame")
              [Name "evaluate_data_list"]));
    (95, Assign ["evaluate_data"]
           (Call (Attribute (Name "evaluate_data") "sort_values")
              [ListE [Const; Const; Const]; Const]));
    (97, Assign ["data_columns"] (ListE (repeat Const 10)));
    (107, ExprStmt
            (Call (Name "print")
               [Subscript (Name "evaluate_data") (Name "data_columns")])) ].

(** The body of [if __name__ == "__main__":]. *)
Definition main_block : list (nat * stmt) :=
  imports ++ prepare ++ networks ++ report.

End Demo.

(* ===================================================================== *)
(** ** A concrete framework, to run the composer on *)
(* ===================================================================== *)

Module Sample.
Import Py AAE.

Definition of_lists (s0 s1 s2 s3 : nat) (l : list (list (list (list Q))))
  : ndarray :=
  {| shape0 := s0; shape1 := s1; shape2 := s2; shape3 := s3;
     item := fun b k s p => nth p (nth s (nth k (nth b l []) []) []) 0%Q |}.

(** Two batches, two programs, two steps, three pitches. *)
Definition bars : ndarray :=
  of_lists 2 2 2 3
    [ [ [[1; 0; 1]; [0; 1; 0]]; [[0; 0; 0]; [1; 0; 0]] ];
      [ [[0; 0; 1]; [0; 0; 1]]; [[1; 1; 1]; [0; 0; 0]] ] ]%Q.

(** One cell equal to one, in the second of two pitch columns. *)
Definition wide : ndarray :=
  of_lists 1 1 1 2 [ [ [[0; 1]] ] ]%Q.

(** Seven batches of one cell each, all equal to one. *)
Definition seven : ndarray :=
  of_lists 7 1 1 1 (repeat [ [[1]] ]%Q 7).

Definition one_note_frame : DataFrame :=
  [Note 0 0 1 60 100].

(** Generative models of the caller draw [wide] when they are number 1,
    [seven] when they are number 3, [bars] otherwise; the generator state
    counts the calls. *)
Definition framework : Framework :=
  {| hidden := nat;
     logs := list Q;
     extract := fun _ => one_note_frame;
     bar_channel := fun _ => 2%Z;
     bar_program_list := fun _ => [0; 5]%Z;
     draw := fun g h =>
       (match body g with
        | GivenGenerativeModel 1 => wide
        | GivenGenerativeModel 3 => seven
        | _ => bars
        end, S h);
     normal_int := fun _ _ h => (Z.of_nat (64 + h), S h);
     train := fun _ _ g d _ _ st => ((g, d), st);
     extract_logs_tuple := fun _ h => ([], h) |}.

#[local] Existing Instance framework.

Definition given (id : positive) : GenerativeModel :=
  {| body := GivenGenerativeModel id; noise_sampler := None |}.

Definition empty_env : env := Env ∅ 0 [].

(** The caller holds generative model number 1 at address 7. *)
Definition env_with_model : env :=
  Env {[ 7%positive := given 1 ]} 0 [].

(** A composer over the default models. *)
Definition composer : AAEComposer :=
  {| __midi_controller := MidiController_;
     __midi_df_list := [one_note_frame];
     __noise_sampler :=
       BarNoiseSampler (SamplerArgs [one_note_frame] 10 2 (1 # 2) 24 27);
     __true_sampler :=
       BarTrueSampler (SamplerArgs [one_note_frame] 10 2 (1 # 2) 24 27) false;
     __generative_model := 7%positive;
     __discriminative_model := GivenDiscriminativeModel 1;
     __GAN := AdversarialAutoEncoders MiniMax;
     __time_fraction := (1 # 2)%Q;
     __min_pitch := 24;
     __max_pitch := 27 |}.

Definition env_with_bars : env :=
  Env {[ 7%positive := given 2 ]} 0 [].

(** The caller holds generative model number 3 at address 7. *)
Definition env_with_seven : env :=
  Env {[ 7%positive := given 3 ]} 0 [].

(** A generative model of the caller that has been given a noise
    sampler. *)
Definition given_with (id : positive) (ns : NoiseSampler) : GenerativeModel :=
  {| body := GivenGenerativeModel id; noise_sampler := Some ns |}.

(** The store after [__init__] has built [composer] around the model of
    [env_with_bars]. *)
Definition env_of_composer : env :=
  Env {[ 7%positive := given_with 2 (__noise_sampler composer) ]} 0 [].

(** A composer over no MIDI file and a noise sampler of the caller that
    lists one program, and the store after [__init__] has built it around
    the model of [env_with_bars]. *)
Definition short_composer : AAEComposer :=
  {| __midi_controller := MidiController_;
     __midi_df_list := [];
     __noise_sampler := GivenNoiseSampler 1 [0%Z];
     __true_sampler := BarTrueSampler (SamplerArgs [] 10 2 (1 # 2) 24 27) false;
     __generative_model := 7%positive;
     __discriminative_model := GivenDiscriminativeModel 1;
     __GAN := AdversarialAutoEncoders MiniMax;
     __time_fraction := (1 # 2)%Q;
     __min_pitch := 24;
     __max_pitch := 27 |}.

Definition env_of_short_composer : env :=
  Env {[ 7%positive := given_with 2 (__noise_sampler short_composer) ]} 0 [].

End Sample.

(* ===================================================================== *)
(** ** The vocabulary of the statements *)
(* ===================================================================== *)

Module Props.
Import Py AAE.

Section WithFramework.
Context `{F : Framework}.

(** The one way [__init__] raises: the caller passes a noise sampler and
    at least one MIDI file, and hashing the program column fails. *)
Definition raises_at_channel (noise_sampler : option NoiseSampler)
    (midi_path_list : list string) (r : result AAEComposer) : Prop :=
  r = Raise (TypeError "'Series' objects are mutable, thus they cannot be hashed")
  /\ noise_sampler <> None /\ midi_path_list <> [].

(** What [int(np.random.normal(...))] raises on parameters it cannot
    sample with. *)
Definition sampling_error (scale : velocity_param) : exn :=
  if is_negative scale then ValueError "scale < 0"
  else ValueError "cannot convert float NaN to integer".

(** The calls of [draw()] in a trace. *)
Definition is_draw (ev : event) : bool :=
  match ev with
  | EvDraw _ => true
  | _ => false
  end.

Definition draws (tr : list event) : list event := List.filter is_draw tr.

(** The value of a time counter that started at [t0] after [j] rounds of
    [t += time_fraction]. *)
Definition after_rounds (time_fraction : Q) (j : nat) (t0 : Q) : Q :=
  Nat.iter j (fun t => Float64.add t time_fraction) t0.

(** [positions] lists, once each, the index tuples
    (batch, program_key, seq, pitch_index) of the cells equal to one. *)
Definition exactly_the_ones (a : ndarray)
    (positions : list (nat * nat * nat * nat)) : Prop :=
  List.NoDup positions /\
  forall b k s p,
    In (b, k, s, p) positions <->
    b < shape0 a /\ k < shape1 a /\ s < shape2 a /\ p < shape3 a /\
    (item a b k s p == 1)%Q.

(** All positions of the ones, batch by batch and program by program. *)
Definition positions_of_ones (a : ndarray) : list (nat * nat * nat * nat) :=
  flat_map (fun b =>
    flat_map (fun k =>
      map (fun sp => (b, k, fst sp, snd sp)) (where_eq_1 a b k))
      (range (shape1 a)))
    (range (shape0 a)).

(** The note columns the array decides. *)
Definition program_and_pitch (n : note) : Z * Z := (program n, pitch n).

Definition expected_program_and_pitch (self : AAEComposer)
    (pos : nat * nat * nat * nat) : Z * Z :=
  match pos with
  | (_, k, _, p) =>
      (nth k (program_list_of (__noise_sampler self)) 0%Z,
       (Z.of_nat p + __min_pitch self)%Z)
  end.

(** The program and pitch columns block (b, k) is due to emit, in the
    order of [np.where]. *)
Definition expected_of_block (self : AAEComposer) (a : ndarray)
    (b k : nat) : list (Z * Z) :=
  map (fun sp => expected_program_and_pitch self (b, k, fst sp, snd sp))
    (where_eq_1 a b k).

(** Between [st0] and [st] the rows [rows] were turned into notes of
    program [prog] at the times of [st0], and nothing else happened but
    velocity sampling. *)
Definition emitted (min_pitch prog : Z) (rows : list key_row)
    (st0 st : locals) : Prop :=
  l_start st = l_start st0 /\
  l_end st = l_end st0 /\
  heap (l_env st) = heap (l_env st0) /\
  draws (trace (l_env st)) = draws (trace (l_env st0)) /\
  exists ns,
    generated_list st = generated_list st0 ++ ns /\
    map pitch ns = map (fun r => (Z.of_nat (k_pitch r) + min_pitch)%Z) rows /\
    Forall (fun n => program n = prog /\ start n = l_start st0 /\
                     end_ n = l_end st0) ns.

(** [blk] is what block number [i], for (batch, program_key) = (b, k),
    adds to the note list. *)
Definition block_of (self : AAEComposer) (a : ndarray) (b k i : nat)
    (blk : list note) : Prop :=
  Permutation (map pitch blk)
    (map (fun sp => (Z.of_nat (snd sp) + __min_pitch self)%Z)
       (where_eq_1 a b k)) /\
  Forall (fun n =>
            program n = nth k (program_list_of (__noise_sampler self)) 0%Z /\
            start n = after_rounds (__time_fraction self) i 0 /\
            end_ n = after_rounds (__time_fraction self) i
                       (__time_fraction self)) blk.

(** Between [st0] and [st] the blocks [bls] were appended, one round of
    the time counters each. *)
Definition ran (self : AAEComposer) (bls : list (list note))
    (st0 st : locals) : Prop :=
  generated_list st = generated_list st0 ++ concat bls /\
  l_start st = after_rounds (__time_fraction self) (length bls) (l_start st0) /\
  l_end st = after_rounds (__time_fraction self) (length bls) (l_end st0) /\
  heap (l_env st) = heap (l_env st0) /\
  draws (trace (l_env st)) = draws (trace (l_env st0)).

(** The order of [sort_values(by=["start", "end"])]. *)
Definition lex_le (a b : note) : Prop :=
  (start a < start b)%Q \/
  ((start a == start b)%Q /\ (end_ a <= end_ b)%Q).

Definition row_le (a b : frame_row) : Prop := lex_le (r_note a) (r_note b).

Definition ends_differ (a b : frame_row) : Prop :=
  ~ (end_ (r_note a) == end_ (r_note b))%Q.

(** [ext] is [srt] row by row, where a note whose end equals the start of
    the note right after it has taken over that note's end, and every other
    note has kept its own; the other columns are untouched. *)
Definition extended (srt : list note) (ext : list frame_row) : Prop :=
  length ext = length srt /\
  forall i n, srt !! i = Some n ->
    exists r, ext !! i = Some r /\
      program (r_note r) = program n /\
      start (r_note r) = start n /\
      pitch (r_note r) = pitch n /\
      velocity (r_note r) = velocity n /\
      (forall n', srt !! S i = Some n' -> (end_ n == start n')%Q ->
         end_ (r_note r) = end_ n') /\
      (forall n', srt !! S i = Some n' -> ~ (end_ n == start n')%Q ->
         end_ (r_note r) = end_ n) /\
      (srt !! S i = None -> end_ (r_note r) = end_ n).

(** [g] keeps, in order, the first row of [ext] for each end value and
    drops the later rows with an end already seen. *)
Definition kept_first (ext g : list frame_row) : Prop :=
  sublist g ext /\
  ForallOrdPairs ends_differ g /\
  forall pre r suf, ext = pre ++ r :: suf ->
    Forall (fun x => ends_differ x r) pre -> In r g.

(** What becomes of the notes of pitch [p]. *)
Definition merged_group (df : list note) (p : Z) (g : list frame_row) : Prop :=
  exists srt ext,
    Permutation srt (List.filter (fun n => (pitch n =? p)%Z) df) /\
    StronglySorted lex_le srt /\
    extended srt ext /\
    kept_first ext g.

End WithFramework.
End Props.

(* ===================================================================== *)
(** ** More vocabulary: whole runs of [compose], the store, the script *)
(* ===================================================================== *)

Module Facts.
Import Py AAE Props.

Section WithFramework.
Context `{F : Framework}.

(** The calls of [save] in a trace. *)
Definition is_save (ev : event) : bool :=
  match ev with
  | EvSave _ _ => true
  | _ => false
  end.

Definition saves (tr : list event) : list event := List.filter is_save tr.

(** The location and the scale [compose] samples the velocities with: the
    caller's number, or the statistic over the extracted frames. *)
Definition velocity_loc (self : AAEComposer) (velocity_mean : option Q)
  : velocity_param :=
  match velocity_mean with
  | None => MeanOfMeans (map (map velocity) (__midi_df_list self))
  | Some q => GivenParam q
  end.

Definition velocity_scale (self : AAEComposer) (velocity_std : option Q)
  : velocity_param :=
  match velocity_std with
  | None => StdOfStds (map (map velocity) (__midi_df_list self))
  | Some q => GivenParam q
  end.

(** Between [st0] and [st] the frameworks were only asked for velocities,
    once for each note appended; the store and the time counters aside. *)
Definition sampling (loc scale : velocity_param) (st0 st : locals) : Prop :=
  heap (l_env st) = heap (l_env st0) /\
  exists n,
    trace (l_env st) = trace (l_env st0) ++ repeat (EvNormal loc scale) n /\
    length (generated_list st) = length (generated_list st0) + n.

(** Between [st0] and [st] no note was appended, unless a velocity can be
    sampled. *)
Definition sampled (loc scale : velocity_param) (st0 st : locals) : Prop :=
  generated_list st = generated_list st0 \/ can_sample loc scale = true.

(** Between [st0] and [st] the frameworks were only asked for velocities;
    the store is as it was. *)
Definition asked (loc scale : velocity_param) (st0 st : locals) : Prop :=
  heap (l_env st) = heap (l_env st0) /\
  exists n,
    trace (l_env st) = trace (l_env st0) ++ repeat (EvNormal loc scale) n.

(** Some cell of the array is equal to one. *)
Definition has_a_one (a : ndarray) : Prop :=
  exists b k s p,
    b < shape0 a /\ k < shape1 a /\ s < shape2 a /\ p < shape3 a /\
    (item a b k s p == 1)%Q.

(** The row [r] is the note [n], but for its end and the helper columns. *)
Definition comes_from (r : frame_row) (n : note) : Prop :=
  program (r_note r) = program n /\
  start (r_note r) = start n /\
  pitch (r_note r) = pitch n /\
  velocity (r_note r) = velocity n.

(** A note alone in its pitch group: no row below it. *)
Definition alone (n : note) : frame_row :=
  {| r_note := n; next_start := None; next_end := None |}.

(** Two rows of the same pitch do not end together. *)
Definition apart (a b : frame_row) : Prop :=
  pitch (r_note a) = pitch (r_note b) -> ends_differ a b.

End WithFramework.
End Facts.

Module DemoFacts.
Import Py Demo.

(** The names a statement looks up and the names it binds. *)
Definition loads_of (s : stmt) : list string :=
  match s with
  | Assign _ value => loads value
  | ExprStmt value => loads value
  | _ => []
  end.

Definition binds_of (s : stmt) : list string :=
  match s with
  | ImportFrom _ name => [name]
  | ImportAs _ asname => [asname]
  | Import module => [module]
  | Assign targets _ => targets
  | ExprStmt _ => []
  end.

(** The names a block needs from outside: looked up on a line before any
    line of the block has bound them. *)
Fixpoint free_names (block : list (nat * stmt)) : list string :=
  match block with
  | [] => []
  | (_, s) :: block' =>
      loads_of s ++
      List.filter (fun x => negb (bound (binds_of s) x)) (free_names block')
  end.

(** The names a block has bound by its last line, latest first. *)
Fixpoint bound_by (block : list (nat * stmt)) : list string :=
  match block with
  | [] => []
  | (_, s) :: block' => bound_by block' ++ binds_of s
  end.

End DemoFacts.

(* ===================================================================== *)
(** ** A framework whose generator draws silence *)
(* ===================================================================== *)

Module Silent.
Import Py AAE.

(** No cell equal to one. *)
Definition rest : ndarray :=
  Sample.of_lists 1 1 1 2 [ [ [[0; 0]] ] ]%Q.

Definition framework : Framework :=
  {| hidden := nat;
     logs := list Q;
     extract := fun _ => Sample.one_note_frame;
     bar_channel := fun _ => 2%Z;
     bar_program_list := fun _ => [0; 5]%Z;
     draw := fun _ h => (rest, S h);
     normal_int := fun _ _ h => (Z.of_nat (64 + h), S h);
     train := fun _ _ g d _ _ st => ((g, d), st);
     extract_logs_tuple := fun _ h => ([], h) |}.

#[local] Existing Instance framework.

Definition env_with_model : env :=
  Env {[ 7%positive := Sample.given 1 ]} 0 [].

End Silent.

(* ===================================================================== *)
(** ** Theorems: the methods that only delegate *)
(* ===================================================================== *)

Import Py AAE Props Facts.

Section Delegation.
Context `{F : Framework}.

(** C3.  [learn(iter_n, k_step)] makes one call into the frameworks,
    [GAN.train] on the stored true sampler, generative model and
    discriminative model with [iter_n] and [k_step]; it stores the returned
    pair as the new generative and discriminative model and leaves every
    other attribute of the composer as it was.  What changes outside the
    composer is what [train] changed. *)
Theorem learn_replaces_only_the_models
    (iter_n k_step : Z) (self : AAEComposer) (e : env) :
  let call :=
    train (__GAN self) (__true_sampler self) (__generative_model self)
      (__discriminative_model self) iter_n k_step (heap e, hid e) in
  exists self' e',
    learn iter_n k_step (self, e) = (Ok tt, (self', e')) /\
    __generative_model self' = fst (fst call) /\
    __discriminative_model self' = snd (fst call) /\
    __true_sampler self' = __true_sampler self /\
    __noise_sampler self' = __noise_sampler self /\
    __GAN self' = __GAN self /\
    __time_fraction self' = __time_fraction self /\
    __min_pitch self' = __min_pitch self /\
    __max_pitch self' = __max_pitch self /\
    __midi_df_list self' = __midi_df_list self /\
    __midi_controller self' = __midi_controller self /\
    heap e' = fst (snd call) /\
    hid e' = snd (snd call) /\
    trace e' =
      trace e ++
        [EvTrain (__GAN self) (__true_sampler self) (__generative_model self)
           (__discriminative_model self) iter_n k_step].
Proof.
  intros call.
  unfold learn, self_, on_env, call_train, bind, modify; cbn.
  fold call. destruct call as [[g d] [h' hd']] eqn:Hcall; cbn.
  eexists _, _. split; [reflexivity|].
  cbn. repeat split; reflexivity.
Qed.

(** C10.  [extract_logs()] returns what [GAN.extract_logs_tuple()] returns
    on the stored GAN object, makes no other call, and leaves the composer
    and the object store as they were. *)
Theorem extract_logs_delegates (self : AAEComposer) (e : env) :
  let call := extract_logs_tuple (__GAN self) (hid e) in
  extract_logs (self, e) =
    (Ok (fst call),
     (self,
      Env (heap e) (snd call) (trace e ++ [EvExtractLogs (__GAN self)]))).
Proof.
  intros call.
  unfold extract_logs, self_, on_env, call_extract_logs_tuple, bind; cbn.
  fold call. destruct call as [l h]; reflexivity.
Qed.

(** C8.  Assigning any value to the property [generative_model] or
    [true_sampler] raises [TypeError] and changes neither the composer nor
    anything around it; reading them returns the stored generative model
    and the stored true sampler. *)
Theorem properties_are_read_only
    (V : Type) (value : V) (self : AAEComposer) (e : env) :
  assign generative_model value (self, e) =
    (Raise (TypeError "This property must be read-only."), (self, e)) /\
  assign true_sampler value (self, e) =
    (Raise (TypeError "This property must be read-only."), (self, e)) /\
  read generative_model (self, e) = (Ok (__generative_model self), (self, e)) /\
  read true_sampler (self, e) = (Ok (__true_sampler self), (self, e)).
Proof. repeat split. Qed.

End Delegation.

(* ===================================================================== *)
(** ** Theorems: the demonstration script *)
(* ===================================================================== *)

(** With the missing name bound, every other name of the block resolves:
    the run reaches the last line. *)
Example demo_completes_once_NeuralNetwork_is_bound :
  fst (Demo.run Demo.main_block ("NeuralNetwork" :: Demo.builtins)) = None.
Proof. vm_compute. reflexivity. Qed.

(** C7.  Run as [__main__] with every import resolving, the script stops at
    line 36 with [NameError]: [NeuralNetwork] is called there and is neither
    imported at the top of the file nor a builtin.  It does not reach the
    training, the evaluation or the printed table. *)
Theorem demo_stops_with_NameError :
  fst (Demo.run Demo.main_block Demo.builtins)
    = Some (36, NameError "NeuralNetwork") /\
  ~ In "NeuralNetwork" Demo.imported /\
  fst (Demo.run Demo.main_block Demo.builtins) <> None.
Proof.
  split; [vm_compute; reflexivity|].
  split; [|vm_compute; discriminate].
  cbn. intros H. repeat (destruct H as [H|H]; [discriminate|]). exact H.
Qed.

(* ===================================================================== *)
(** ** Theorems: [__init__] *)
(* ===================================================================== *)

Section Init.
Context `{F : Framework}.

Variables (midi_path_list : list string) (batch_size seq_len : Z)
  (time_fraction : Q) (min_pitch max_pitch : Z) (learning_rate : Q)
  (hidden_dim : option Z) (true_sampler : option TrueSampler)
  (noise_sampler : option NoiseSampler) (generative_model : option ref)
  (discriminative_model : option DiscriminativeModel)
  (gans_value_function : option GANsValueFunction).

Local Abbreviation init :=
  (__init__ midi_path_list batch_size seq_len time_fraction min_pitch
     max_pitch learning_rate hidden_dim true_sampler noise_sampler
     generative_model discriminative_model gans_value_function).

Local Abbreviation bar_args :=
  (SamplerArgs (map extract midi_path_list) batch_size seq_len time_fraction
     min_pitch max_pitch).

(** Counting the programs of a caller's noise sampler raises as soon as
    there is a frame to count. *)
Lemma init_channel_raises (e : env) :
  noise_sampler <> None -> midi_path_list <> [] ->
  init e =
    (Raise (TypeError "'Series' objects are mutable, thus they cannot be hashed"), e).
Proof.
  intros Hns Hm. unfold __init__.
  destruct noise_sampler as [ns|]; [|congruence].
  destruct midi_path_list as [|p ps]; [congruence|].
  reflexivity.
Qed.

(** With the default noise sampler, a default discriminator is built for
    [hidden_dim = channel * seq_len * (max_pitch - min_pitch)], the
    channel being the sampler's. *)
Lemma init_default_hidden_dim (e : env) :
  noise_sampler = None -> discriminative_model = None -> hidden_dim = None ->
  exists self e' d,
    init e = (Ok self, e') /\
    __discriminative_model self = SeqCNNModel d /\
    og_hidden_dim (cnn_output_graph d)
      = (bar_channel bar_args * seq_len * (max_pitch - min_pitch))%Z.
Proof.
  intros Hns Hd Hh. unfold __init__.
  rewrite Hns, Hd, Hh.
  destruct generative_model; cbn; eexists _, _, _; repeat split.
Qed.

(** C5.  When [__init__] returns, the stored true sampler is the caller's
    when one was passed and otherwise a [BarTrueSampler] over the extracted
    frames with the given batch_size, seq_len, time_fraction, min_pitch,
    max_pitch and [conditional_flag=False]; the property [true_sampler]
    returns it.  [__init__] returns unless it raises while counting the
    programs for a caller's noise sampler. *)
Theorem init_wires_the_true_sampler (e : env) :
  match init e with
  | (Ok self, e') =>
      __true_sampler self =
        match true_sampler with
        | None => BarTrueSampler bar_args false
        | Some ts => ts
        end /\
      read AAE.true_sampler (self, e') = (Ok (__true_sampler self), (self, e'))
  | (Raise ex, e') => raises_at_channel noise_sampler midi_path_list (Raise ex) /\ e' = e
  end.
Proof.
  destruct (decide (noise_sampler <> None /\ midi_path_list <> [])) as [[Hn Hm]|Hno].
  - rewrite (init_channel_raises e Hn Hm). repeat split; assumption.
  - unfold __init__.
    destruct noise_sampler as [ns|].
    + destruct midi_path_list as [|p ps].
      * destruct generative_model; cbn; split; reflexivity.
      * exfalso. apply Hno. split; congruence.
    + destruct generative_model; cbn; split; reflexivity.
Qed.

(** C9.  When [__init__] returns, the generative model the composer holds
    has the composer's noise sampler as its [noise_sampler] attribute: the
    default [BarNoiseSampler] when none was passed, the caller's otherwise.
    A generative model passed by the caller is the very object the composer
    holds, and that assignment is the one change made to the object store.
    [__init__] returns unless it raises while counting the programs for a
    caller's noise sampler. *)
Theorem init_assigns_the_noise_sampler (e : env)
    (Hlive : forall g, generative_model = Some g -> is_Some (heap e !! g)) :
  match init e with
  | (Ok self, e') =>
      __noise_sampler self =
        match noise_sampler with
        | None => BarNoiseSampler bar_args
        | Some ns => ns
        end /\
      (exists o, heap e' !! __generative_model self = Some o /\
                 AAE.noise_sampler o = Some (__noise_sampler self)) /\
      (forall g, generative_model = Some g ->
         __generative_model self = g /\
         heap e' =
           alter (fun o => {| body := body o;
                              AAE.noise_sampler := Some (__noise_sampler self) |})
             g (heap e))
  | (Raise ex, e') => raises_at_channel noise_sampler midi_path_list (Raise ex) /\ e' = e
  end.
Proof.
  destruct (decide (noise_sampler <> None /\ midi_path_list <> [])) as [[Hn Hm]|Hno].
  - rewrite (init_channel_raises e Hn Hm). repeat split; assumption.
  - assert (Hcase : noise_sampler = None \/
                    exists ns, noise_sampler = Some ns /\ midi_path_list = []).
    { destruct noise_sampler as [ns|]; [right|left; reflexivity].
      destruct midi_path_list; [eauto|]. exfalso; apply Hno; split; congruence. }
    unfold __init__.
    destruct Hcase as [->|(ns & -> & ->)];
      (destruct generative_model as [g|];
       [ destruct (Hlive g eq_refl) as [o Ho]; cbn;
         split; [reflexivity|]; split;
         [ eexists; rewrite lookup_alter_eq, Ho; cbn; split; reflexivity
         | intros g' [= <-]; split; reflexivity ]
       | cbn; split; [reflexivity|]; split;
         [ eexists; rewrite lookup_alter_eq, lookup_insert_eq; cbn;
           split; reflexivity
         | intros g' [=] ] ]).
Qed.

End Init.

(* ===================================================================== *)
(** ** Theorems: [compose], from the drawn array to the note list *)
(* ===================================================================== *)

Section Binds.
Context {S A : Type}.

Lemma bind_ok {B : Type} (m : M S A) (k : A -> M S B) (s s' : S) (a : A) :
  m s = (Ok a, s') -> bind m k s = k a s'.
Proof. intros H. unfold bind. rewrite H. reflexivity. Qed.

Lemma bind_ok_inv {B : Type} (m : M S A) (k : A -> M S B) (s s' : S) (b : B) :
  bind m k s = (Ok b, s') ->
  exists a s1, m s = (Ok a, s1) /\ k a s1 = (Ok b, s').
Proof.
  unfold bind. destruct (m s) as [[a|ex] s1]; [|discriminate].
  intros H. exists a, s1. split; [reflexivity | exact H].
Qed.

Lemma bind_raise_inv {B : Type} (m : M S A) (k : A -> M S B) (s s' : S)
    (ex : exn) :
  bind m k s = (Raise ex, s') ->
  m s = (Raise ex, s') \/
  exists a s1, m s = (Ok a, s1) /\ k a s1 = (Raise ex, s').
Proof.
  unfold bind. destruct (m s) as [[a|ex1] s1]; intros H.
  - right. exists a, s1. split; [reflexivity | exact H].
  - left. injection H as -> ->. reflexivity.
Qed.

End Binds.

Section Loops.
Context {S A : Type}.

Lemma for_cons_ok (x : A) (xs : list A) (body : A -> M S unit) (s s' : S) :
  body x s = (Ok tt, s') -> for_ (x :: xs) body s = for_ xs body s'.
Proof. intros H. cbn. unfold bind. rewrite H. reflexivity. Qed.

Lemma for_cons_raise (x : A) (xs : list A) (body : A -> M S unit) (s s' : S)
    (ex : exn) :
  body x s = (Raise ex, s') -> for_ (x :: xs) body s = (Raise ex, s').
Proof. intros H. cbn. unfold bind. rewrite H. reflexivity. Qed.

Lemma for_app_ok (xs ys : list A) (body : A -> M S unit) (s s' : S) :
  for_ xs body s = (Ok tt, s') -> for_ (xs ++ ys) body s = for_ ys body s'.
Proof.
  revert s. induction xs as [|x xs IH]; intros s H; cbn in *.
  - injection H as ->. reflexivity.
  - unfold bind in *. destruct (body x s) as [[[]|ex] s1]; [|discriminate].
    apply IH. exact H.
Qed.

(** A loop that runs through has run through every round. *)
Lemma for_cons_inv (x : A) (xs : list A) (body : A -> M S unit) (s s' : S) :
  for_ (x :: xs) body s = (Ok tt, s') ->
  exists s1, body x s = (Ok tt, s1) /\ for_ xs body s1 = (Ok tt, s').
Proof.
  cbn [for_]. intros H. apply bind_ok_inv in H.
  destruct H as ([] & s1 & H1 & H2). exists s1. split; assumption.
Qed.

(** A loop that raises has raised in one of its rounds. *)
Lemma for_raise_inv (xs : list A) (body : A -> M S unit) (ex : exn) (s' : S) :
  forall s, for_ xs body s = (Raise ex, s') ->
  exists x s1, In x xs /\ body x s1 = (Raise ex, s').
Proof.
  induction xs as [|x xs IH]; intros s H.
  - discriminate H.
  - cbn [for_] in H. apply bind_raise_inv in H.
    destruct H as [H|(_ & s1 & _ & H)].
    + exists x, s. split; [left; reflexivity | exact H].
    + destruct (IH s1 H) as (y & s2 & Hy & Hr).
      exists y, s2. split; [right; exact Hy | exact Hr].
Qed.

End Loops.

Section Preserved.
Context {S : Type} (R : S -> S -> Prop).
Hypothesis R_refl : forall s, R s s.
Hypothesis R_trans : forall a b c, R a b -> R b c -> R a c.

(** A relation every step keeps, whatever its outcome, is kept by a
    sequence and by a loop. *)
Lemma bind_preserves {A B : Type} (m : M S A) (k : A -> M S B) (s : S) :
  R s (snd (m s)) -> (forall a s', R s' (snd (k a s'))) ->
  R s (snd (bind m k s)).
Proof.
  intros Hm Hk. unfold bind. destruct (m s) as [[a|ex] s1]; cbn in *.
  - eapply R_trans; [exact Hm | apply Hk].
  - exact Hm.
Qed.

Lemma for_preserves {A : Type} (xs : list A) (body : A -> M S unit) :
  (forall x s, R s (snd (body x s))) ->
  forall s, R s (snd (for_ xs body s)).
Proof.
  intros Hbody. induction xs as [|x xs IH]; intros s; cbn [for_].
  - apply R_refl.
  - apply bind_preserves; [apply Hbody | intros _ s'; apply IH].
Qed.

(** A relation every step that returns keeps is kept by a loop that
    returns. *)
Lemma for_returns_preserves {A : Type} (xs : list A) (body : A -> M S unit) :
  (forall x s s', body x s = (Ok tt, s') -> R s s') ->
  forall s s', for_ xs body s = (Ok tt, s') -> R s s'.
Proof.
  intros Hbody. induction xs as [|x xs IH]; intros s s' H.
  - injection H as <-. apply R_refl.
  - apply for_cons_inv in H. destruct H as (s1 & H1 & H2).
    eapply R_trans; [eapply Hbody; exact H1 | apply IH; exact H2].
Qed.

End Preserved.

Section Sorting.
Context {A : Type} (leb : A -> A -> bool).

Lemma insert_by_Permutation (x : A) (l : list A) :
  Permutation (insert_by leb x l) (x :: l).
Proof.
  induction l as [|y l IH]; cbn.
  - reflexivity.
  - destruct (leb x y).
    + reflexivity.
    + rewrite IH. apply perm_swap.
Qed.

Lemma sort_by_Permutation (l : list A) : Permutation (sort_by leb l) l.
Proof.
  induction l as [|x l IH]; cbn.
  - reflexivity.
  - rewrite insert_by_Permutation. constructor. exact IH.
Qed.

Hypothesis leb_total : forall a b, leb a b = true \/ leb b a = true.
Hypothesis leb_trans :
  forall a b c, leb a b = true -> leb b c = true -> leb a c = true.

Lemma insert_by_sorted (x : A) (l : list A) :
  StronglySorted (fun a b => leb a b = true) l ->
  StronglySorted (fun a b => leb a b = true) (insert_by leb x l).
Proof.
  induction 1 as [|y l Hs IH Hy]; cbn.
  - repeat constructor.
  - destruct (leb x y) eqn:Hxy.
    + constructor; [constructor; assumption|].
      constructor; [assumption|].
      eapply List.Forall_impl; [|exact Hy]. intros z Hz. cbn in Hz. eauto.
    + constructor; [assumption|].
      eapply Permutation_Forall; [symmetry; apply insert_by_Permutation|].
      constructor; [|assumption].
      destruct (leb_total x y) as [H|H]; congruence.
Qed.

Lemma sort_by_sorted (l : list A) :
  StronglySorted (fun a b => leb a b = true) (sort_by leb l).
Proof.
  induction l as [|x l IH]; cbn.
  - constructor.
  - apply insert_by_sorted, IH.
Qed.

End Sorting.

Section Partition.
Context {A : Type} (key : A -> nat).

Lemma filter_key_cons (x : A) (l : list A) (s : nat) :
  List.filter (fun r => key r =? s) (x :: l) =
    if key x =? s then x :: List.filter (fun r => key r =? s) l
    else List.filter (fun r => key r =? s) l.
Proof. reflexivity. Qed.

Lemma flat_map_filter_miss (x : A) (l : list A) (ss : list nat) :
  ~ In (key x) ss ->
  flat_map (fun s => List.filter (fun r => key r =? s) (x :: l)) ss
  = flat_map (fun s => List.filter (fun r => key r =? s) l) ss.
Proof.
  induction ss as [|s ss IH]; intros Hn; cbn [flat_map].
  - reflexivity.
  - rewrite filter_key_cons.
    destruct (Nat.eqb_spec (key x) s) as [Heq|Hne].
    + exfalso. apply Hn. left. congruence.
    + rewrite IH; [reflexivity|]. intros H. apply Hn. right. exact H.
Qed.

Lemma flat_map_filter_hit (x : A) (l : list A) (ss : list nat) :
  List.NoDup ss -> In (key x) ss ->
  Permutation
    (flat_map (fun s => List.filter (fun r => key r =? s) (x :: l)) ss)
    (x :: flat_map (fun s => List.filter (fun r => key r =? s) l) ss).
Proof.
  induction 1 as [|s ss Hs Hnd IH]; intros Hin; cbn [flat_map].
  - destruct Hin.
  - rewrite filter_key_cons.
    destruct (Nat.eqb_spec (key x) s) as [Heq|Hne].
    + subst s. rewrite flat_map_filter_miss by assumption. reflexivity.
    + destruct Hin as [Heq|Hin]; [congruence|].
      rewrite (IH Hin). symmetry. apply Permutation_middle.
Qed.

(** Walking the keys in order and picking the rows of each key visits
    every row once. *)
Lemma partition_by_key (l : list A) (n : nat) :
  Forall (fun r => key r < n) l ->
  Permutation
    (flat_map (fun s => List.filter (fun r => key r =? s) l) (range n)) l.
Proof.
  induction 1 as [|x l Hx Hl IH].
  - unfold range. induction (seq 0 n); cbn; [reflexivity|assumption].
  - rewrite flat_map_filter_hit.
    + constructor. exact IH.
    + apply seq_NoDup.
    + apply in_seq. lia.
Qed.

End Partition.

Section Emission.
Context `{F : Framework}.
Variables (self : AAEComposer) (arr : ndarray)
  (velocity_mean velocity_std : velocity_param).

Local Abbreviation min_pitch := (__min_pitch self).
Local Abbreviation tf := (__time_fraction self).
Local Abbreviation programs := (program_list_of (__noise_sampler self)).

Lemma draws_app (tr1 tr2 : list event) :
  draws (tr1 ++ tr2) = draws tr1 ++ draws tr2.
Proof. apply List.filter_app. Qed.

Lemma emitted_refl (prog : Z) (st : locals) : emitted min_pitch prog [] st st.
Proof.
  repeat split. exists []. rewrite app_nil_r. repeat split. constructor.
Qed.

Lemma emitted_trans (prog : Z) (rows1 rows2 : list key_row)
    (st0 st1 st2 : locals) :
  emitted min_pitch prog rows1 st0 st1 ->
  emitted min_pitch prog rows2 st1 st2 ->
  emitted min_pitch prog (rows1 ++ rows2) st0 st2.
Proof.
  intros (Hs1 & He1 & Hh1 & Hd1 & ns1 & Hg1 & Hp1 & Hf1)
         (Hs2 & He2 & Hh2 & Hd2 & ns2 & Hg2 & Hp2 & Hf2).
  repeat split; try congruence.
  exists (ns1 ++ ns2). split; [|split].
  - rewrite Hg2, Hg1, app_assoc. reflexivity.
  - rewrite !map_app, Hp1, Hp2. reflexivity.
  - apply Forall_app. split; [exact Hf1|].
    rewrite Hs1, He1 in Hf2. exact Hf2.
Qed.

(** Sampling a velocity returns exactly when the parameters allow it; it is
    recorded either way and touches nothing else. *)
Lemma call_normal_outcome (st : locals) :
  let out := call_normal velocity_mean velocity_std st in
  match fst out with
  | Ok _ => can_sample velocity_mean velocity_std = true
  | Raise ex =>
      ex = sampling_error velocity_std /\
      can_sample velocity_mean velocity_std = false
  end /\
  generated_list (snd out) = generated_list st /\
  l_start (snd out) = l_start st /\
  l_end (snd out) = l_end st /\
  heap (l_env (snd out)) = heap (l_env st) /\
  trace (l_env (snd out))
    = trace (l_env st) ++ [EvNormal velocity_mean velocity_std].
Proof.
  unfold call_normal, can_sample, sampling_error.
  destruct (is_negative velocity_std); cbn.
  - repeat split.
  - destruct (normal_int velocity_mean velocity_std (hid (l_env st)))
      as [v h].
    destruct (is_nan velocity_mean || is_nan velocity_std); cbn;
      repeat split.
Qed.

(** One row: one velocity sample, one note appended. *)
Lemma emit_row (prog : Z) (r : key_row) (st st' : locals) :
  (velocity <- call_normal velocity_mean velocity_std ;;
   append_note prog (Z.of_nat (k_pitch r) + min_pitch)%Z velocity) st
    = (Ok tt, st') ->
  emitted min_pitch prog [r] st st'.
Proof.
  intros H. apply bind_ok_inv in H. destruct H as (v & st1 & Hc & Ha).
  pose proof (call_normal_outcome st) as Ho. cbv zeta in Ho.
  rewrite Hc in Ho. cbn in Ho. destruct Ho as (_ & Hg & Hs & He & Hh & Ht).
  unfold append_note, modify in Ha. injection Ha as <-.
  unfold emitted. cbn [generated_list l_start l_end l_env].
  split; [exact Hs|]. split; [exact He|]. split; [exact Hh|]. split.
  - rewrite Ht, draws_app. cbn. apply app_nil_r.
  - eexists. rewrite Hg. split; [reflexivity|]. split; [reflexivity|].
    repeat constructor; assumption.
Qed.

(** One row raises only where the velocity is sampled. *)
Lemma row_raises (prog pitch_ : Z) (st st' : locals) (ex : exn) :
  (velocity <- call_normal velocity_mean velocity_std ;;
   append_note prog pitch_ velocity) st = (Raise ex, st') ->
  ex = sampling_error velocity_std /\
  can_sample velocity_mean velocity_std = false.
Proof.
  intros H. apply bind_raise_inv in H.
  destruct H as [Hc|(v & st1 & _ & Ha)]; [|discriminate Ha].
  pose proof (call_normal_outcome st) as Ho. cbv zeta in Ho.
  rewrite Hc in Ho. cbn in Ho. destruct Ho as (Ho & _). exact Ho.
Qed.

Lemma emit_rows (prog : Z) (df : list key_row) (st st' : locals) :
  for_ df (fun r =>
    velocity <- call_normal velocity_mean velocity_std ;;
    append_note prog (Z.of_nat (k_pitch r) + min_pitch)%Z velocity) st
    = (Ok tt, st') ->
  emitted min_pitch prog df st st'.
Proof.
  revert st. induction df as [|r df IH]; intros st H.
  - injection H as <-. apply emitted_refl.
  - apply for_cons_inv in H. destruct H as (st1 & H1 & H2).
    apply (emitted_trans prog [r] df st st1 st').
    + apply emit_row. exact H1.
    + apply IH. exact H2.
Qed.

(** The [seq] loop: the rows of each step in turn. *)
Lemma emit_steps (prog : Z) (key_df : list key_row) (steps : list nat)
    (st st' : locals) :
  for_ steps (fun seq =>
    for_ (List.filter (fun r => k_seq r =? seq) key_df) (fun r =>
      velocity <- call_normal velocity_mean velocity_std ;;
      append_note prog (Z.of_nat (k_pitch r) + min_pitch)%Z velocity)) st
    = (Ok tt, st') ->
  emitted min_pitch prog
    (flat_map (fun seq => List.filter (fun r => k_seq r =? seq) key_df) steps)
    st st'.
Proof.
  revert st. induction steps as [|s steps IH]; intros st H.
  - injection H as <-. apply emitted_refl.
  - apply for_cons_inv in H. destruct H as (st1 & H1 & H2).
    cbn [flat_map]. eapply emitted_trans.
    + apply emit_rows. exact H1.
    + apply IH. exact H2.
Qed.

Lemma where_eq_1_seq (b k : nat) :
  Forall (fun sp => fst sp < shape2 arr) (where_eq_1 arr b k).
Proof.
  unfold where_eq_1. apply List.Forall_forall. intros [s p] Hin.
  apply in_flat_map in Hin. destruct Hin as (s' & Hs' & Hin).
  apply in_map_iff in Hin. destruct Hin as (p' & [= <- <-] & _).
  apply in_seq in Hs'. cbn. lia.
Qed.

(** The rows a block walks through are the rows of [np.where], reordered. *)
Lemma block_rows (b k : nat) :
  Permutation
    (flat_map (fun seq =>
       List.filter (fun r => k_seq r =? seq)
         (sort_by p_descending (key_df_of arr b k)))
       (range (shape2 arr)))
    (key_df_of arr b k).
Proof.
  rewrite (partition_by_key k_seq).
  - apply sort_by_Permutation.
  - eapply Permutation_Forall; [symmetry; apply sort_by_Permutation|].
    unfold key_df_of. apply Forall_map.
    eapply List.Forall_impl; [|apply where_eq_1_seq]. intros sp H. exact H.
Qed.

(** One block that runs through. *)
Lemma run_block (b k i : nat) (st st' : locals) :
  block self arr velocity_mean velocity_std b k st = (Ok tt, st') ->
  l_start st = after_rounds tf i 0 ->
  l_end st = after_rounds tf i tf ->
  exists blk,
    ran self [blk] st st' /\
    block_of self arr b k i blk.
Proof.
  intros Hrun Hst Hen. unfold block in Hrun. cbv zeta in Hrun.
  apply bind_ok_inv in Hrun. destruct Hrun as (prog & st0 & Hidx & Hrun).
  unfold lift, index in Hidx.
  destruct (nth_error programs k) as [prog'|] eqn:Hprog; [|discriminate].
  injection Hidx as -> <-.
  apply bind_ok_inv in Hrun. destruct Hrun as ([] & st1 & Hsteps & Hadv).
  apply emit_steps in Hsteps.
  destruct Hsteps as (Hs1 & He1 & Hh1 & Hd1 & ns & Hg & Hp & Hf).
  unfold advance, modify in Hadv. injection Hadv as <-.
  exists ns. split; [|split].
  - unfold ran. cbn. rewrite app_nil_r, Hs1, He1. repeat split; assumption.
  - rewrite Hp.
    change (fun r : key_row => (Z.of_nat (k_pitch r) + min_pitch)%Z)
      with (fun r : key_row => (fun j => (Z.of_nat j + min_pitch)%Z) (k_pitch r)).
    rewrite <- (map_map k_pitch (fun j => (Z.of_nat j + min_pitch)%Z)).
    rewrite block_rows. unfold key_df_of. rewrite !map_map. reflexivity.
  - eapply List.Forall_impl; [|exact Hf]. cbn.
    intros n (-> & -> & ->). split; [|split; assumption].
    symmetry. apply nth_error_nth. exact Hprog.
Qed.

(** One block that raises: its program is not listed, or it has a cell
    equal to one and the velocity cannot be sampled. *)
Lemma block_raise_inv (b k : nat) (st st' : locals) (ex : exn) :
  block self arr velocity_mean velocity_std b k st = (Raise ex, st') ->
  (ex = IndexError /\ length programs <= k) \/
  (ex = sampling_error velocity_std /\
   can_sample velocity_mean velocity_std = false /\
   where_eq_1 arr b k <> []).
Proof.
  intros Hrun. unfold block in Hrun. cbv zeta in Hrun.
  apply bind_raise_inv in Hrun.
  destruct Hrun as [Hidx|(prog & st0 & _ & Hrun)].
  - left. unfold lift, index in Hidx.
    destruct (nth_error programs k) as [prog|] eqn:Hprog; [discriminate|].
    injection Hidx as <- _. split; [reflexivity|].
    apply nth_error_None. exact Hprog.
  - right. apply bind_raise_inv in Hrun.
    destruct Hrun as [Hsteps|(u & st1 & _ & Hadv)]; [|discriminate Hadv].
    apply for_raise_inv in Hsteps. destruct Hsteps as (s & st1 & _ & Hrows).
    apply for_raise_inv in Hrows. destruct Hrows as (r & st2 & Hr & Hrow).
    apply row_raises in Hrow. destruct Hrow as [Hex Hcan].
    split; [exact Hex|]. split; [exact Hcan|].
    apply filter_In in Hr. destruct Hr as [Hr _].
    eapply Permutation_in in Hr; [|apply sort_by_Permutation].
    unfold key_df_of in Hr. intros Hnil. rewrite Hnil in Hr. destruct Hr.
Qed.

End Emission.

Section Blocks.
Context `{F : Framework}.
Variables (self : AAEComposer) (arr : ndarray)
  (velocity_mean velocity_std : velocity_param).

Local Abbreviation tf := (__time_fraction self).
Local Abbreviation programs := (program_list_of (__noise_sampler self)).

Lemma after_rounds_add (n m : nat) (t : Q) :
  after_rounds tf (n + m) t = after_rounds tf m (after_rounds tf n t).
Proof. unfold after_rounds. rewrite Nat.add_comm. apply Nat.iter_add. Qed.

(** When adding to zero gives the number added, the end counter is one
    addition ahead of the start counter. *)
Lemma after_rounds_end (i : nat) :
  Float64.add 0 tf = tf ->
  after_rounds tf i tf = Float64.add (after_rounds tf i 0) tf.
Proof.
  intros H0. unfold after_rounds. induction i as [|i IH]; cbn.
  - symmetry. exact H0.
  - f_equal. exact IH.
Qed.

Lemma ran_nil (st : locals) : ran self [] st st.
Proof. unfold ran. cbn. rewrite app_nil_r. repeat split. Qed.

Lemma ran_app (bls1 bls2 : list (list note)) (st0 st1 st2 : locals) :
  ran self bls1 st0 st1 -> ran self bls2 st1 st2 ->
  ran self (bls1 ++ bls2) st0 st2.
Proof.
  intros (Hg1 & Hs1 & He1 & Hh1 & Hd1) (Hg2 & Hs2 & He2 & Hh2 & Hd2).
  unfold ran. rewrite length_app, !after_rounds_add, concat_app.
  repeat split; try congruence.
  rewrite Hg2, Hg1, app_assoc. reflexivity.
Qed.

Lemma block_of_expected (b k i : nat) (blk : list note) :
  block_of self arr b k i blk ->
  Permutation (map program_and_pitch blk) (expected_of_block self arr b k).
Proof.
  intros [Hp Hf].
  assert (Hmap : map program_and_pitch blk
                 = map (pair (nth k programs 0%Z)) (map pitch blk)).
  { clear Hp. induction Hf as [|n blk (Hn & _) _ IH]; cbn.
    - reflexivity.
    - rewrite IH. unfold program_and_pitch at 1. rewrite Hn. reflexivity. }
  rewrite Hmap, Hp. unfold expected_of_block. rewrite map_map. reflexivity.
Qed.

(** The [program_key] loop of batch [b], from program [k0] on. *)
Lemma run_programs (b m : nat) :
  forall (k0 : nat) (st st' : locals),
    for_ (seq k0 m)
      (block self arr velocity_mean velocity_std b) st = (Ok tt, st') ->
    l_start st = after_rounds tf (b * shape1 arr + k0) 0 ->
    l_end st = after_rounds tf (b * shape1 arr + k0) tf ->
    exists bls,
      ran self bls st st' /\
      length bls = m /\
      Permutation (map program_and_pitch (concat bls))
        (flat_map (expected_of_block self arr b) (seq k0 m)) /\
      forall i, i < m ->
        exists blk, bls !! i = Some blk /\
          block_of self arr b (k0 + i) (b * shape1 arr + (k0 + i)) blk.
Proof.
  induction m as [|m IH]; intros k0 st st' Hrun Hs He.
  - injection Hrun as <-. exists []. split; [apply ran_nil|].
    split; [reflexivity|]. split; [reflexivity|]. intros i Hi. lia.
  - cbn [seq] in Hrun. apply for_cons_inv in Hrun.
    destruct Hrun as (st1 & Hrun1 & Hrun2).
    destruct (run_block self arr velocity_mean velocity_std b k0
                (b * shape1 arr + k0) st st1 Hrun1 Hs He)
      as (blk & Hran & Hblk).
    destruct Hran as (Hg1 & Hs1 & He1 & Hh1 & Hd1).
    destruct (IH (S k0) st1 st' Hrun2)
      as (bls & Hran2 & Hlen & Hperm & Hall).
    { rewrite Hs1, Hs. replace (b * shape1 arr + S k0) with (S (b * shape1 arr + k0)) by lia.
      reflexivity. }
    { rewrite He1, He. replace (b * shape1 arr + S k0) with (S (b * shape1 arr + k0)) by lia.
      reflexivity. }
    exists ([blk] ++ bls). split; [|split; [|split]].
    + eapply ran_app; [|exact Hran2]. repeat split; assumption.
    + cbn. rewrite Hlen. reflexivity.
    + cbn [app concat seq flat_map]. rewrite map_app.
      apply Permutation_app; [|exact Hperm].
      eapply block_of_expected. exact Hblk.
    + intros [|i] Hi.
      * exists blk. split; [reflexivity|]. rewrite Nat.add_0_r. exact Hblk.
      * destruct (Hall i) as (blk' & Hlk & Hb'); [lia|].
        exists blk'. split; [exact Hlk|].
        replace (k0 + S i) with (S k0 + i) by lia. exact Hb'.
Qed.

(** The [batch] loop, from batch [b0] on. *)
Lemma run_batches (m : nat) :
  forall (b0 : nat) (st st' : locals),
    for_ (seq b0 m) (fun batch =>
      for_ (range (shape1 arr))
        (block self arr velocity_mean velocity_std batch)) st
      = (Ok tt, st') ->
    l_start st = after_rounds tf (b0 * shape1 arr) 0 ->
    l_end st = after_rounds tf (b0 * shape1 arr) tf ->
    exists bls,
      ran self bls st st' /\
      length bls = m * shape1 arr /\
      Permutation (map program_and_pitch (concat bls))
        (flat_map (fun b =>
           flat_map (expected_of_block self arr b) (range (shape1 arr)))
           (seq b0 m)) /\
      forall i k, i < m -> k < shape1 arr ->
        exists blk, bls !! (i * shape1 arr + k) = Some blk /\
          block_of self arr (b0 + i) k ((b0 + i) * shape1 arr + k) blk.
Proof.
  induction m as [|m IH]; intros b0 st st' Hrun Hs He.
  - injection Hrun as <-. exists []. split; [apply ran_nil|].
    split; [reflexivity|]. split; [reflexivity|]. intros i k Hi. lia.
  - cbn [seq] in Hrun. apply for_cons_inv in Hrun.
    destruct Hrun as (st1 & Hrun1 & Hrun2).
    destruct (run_programs b0 (shape1 arr) 0 st st1 Hrun1)
      as (bls1 & Hran & Hlen & Hperm & Hall);
      [rewrite Nat.add_0_r; assumption | rewrite Nat.add_0_r; assumption |].
    pose proof Hran as (Hg1 & Hs1 & He1 & Hh1 & Hd1).
    destruct (IH (S b0) st1 st' Hrun2)
      as (bls & Hran2 & Hlen2 & Hperm2 & Hall2).
    { rewrite Hs1, Hs, Hlen, <- after_rounds_add. f_equal; lia. }
    { rewrite He1, He, Hlen, <- after_rounds_add. f_equal; lia. }
    exists (bls1 ++ bls). split; [|split; [|split]].
    + eapply ran_app; eassumption.
    + rewrite length_app, Hlen, Hlen2. reflexivity.
    + rewrite concat_app, map_app. cbn [seq flat_map].
      apply Permutation_app; assumption.
    + intros [|i] k Hi Hk.
      * destruct (Hall k Hk) as (blk & Hlk & Hb).
        exists blk. split.
        -- rewrite lookup_app_l by (rewrite Hlen; lia). exact Hlk.
        -- rewrite Nat.add_0_r. exact Hb.
      * destruct (Hall2 i k) as (blk & Hlk & Hb); [lia | assumption |].
        exists blk. split.
        -- rewrite lookup_app_r by (rewrite Hlen; lia).
           rewrite Hlen.
           replace (S i * shape1 arr + k - shape1 arr) with (i * shape1 arr + k) by lia.
           exact Hlk.
        -- replace (b0 + S i) with (S b0 + i) by lia. exact Hb.
Qed.

End Blocks.

Section Ones.
Context `{F : Framework}.
Variable arr : ndarray.

Lemma in_where_eq_1 (b k s p : nat) :
  In (s, p) (where_eq_1 arr b k) <->
  s < shape2 arr /\ p < shape3 arr /\ (item arr b k s p == 1)%Q.
Proof.
  unfold where_eq_1, range. rewrite in_flat_map. split.
  - intros (s' & Hs' & Hin).
    apply in_map_iff in Hin. destruct Hin as (p' & [= <- <-] & Hin).
    apply filter_In in Hin. destruct Hin as [Hp Hq].
    apply in_seq in Hs'. apply in_seq in Hp. apply Qeq_bool_iff in Hq.
    repeat split; [lia | lia | exact Hq].
  - intros (Hs & Hp & Hq). exists s. split; [apply in_seq; lia|].
    apply in_map. apply filter_In. split; [apply in_seq; lia|].
    apply Qeq_bool_iff. exact Hq.
Qed.

Lemma NoDup_flat_map {A B : Type} (f : A -> list B) (l : list A) :
  List.NoDup l ->
  (forall x, In x l -> List.NoDup (f x)) ->
  (forall x y z, In x l -> In y l -> In z (f x) -> In z (f y) -> x = y) ->
  List.NoDup (flat_map f l).
Proof.
  induction 1 as [|x l Hx Hnd IH]; intros Hf Hdisj; cbn.
  - constructor.
  - apply List.NoDup_app.
    + apply Hf. left. reflexivity.
    + apply IH.
      * intros y Hy. apply Hf. right. exact Hy.
      * intros y1 y2 z H1 H2. apply Hdisj; right; assumption.
    + intros z Hz1 Hz2. apply in_flat_map in Hz2.
      destruct Hz2 as (y & Hy & Hz2).
      assert (x = y)
        by (apply (Hdisj x y z); [left; reflexivity | right; exact Hy | | ];
            assumption).
      subst y. contradiction.
Qed.

Lemma NoDup_map_inj {A B : Type} (f : A -> B) (l : list A) :
  (forall x y, f x = f y -> x = y) -> List.NoDup l -> List.NoDup (map f l).
Proof.
  intros Hinj. induction 1 as [|x l Hx Hnd IH]; cbn; constructor.
  - intros Hin. apply in_map_iff in Hin.
    destruct Hin as (y & Hy & Hin).
    apply Hinj in Hy. subst y. apply Hx. exact Hin.
  - exact IH.
Qed.

Lemma NoDup_where_eq_1 (b k : nat) : List.NoDup (where_eq_1 arr b k).
Proof.
  unfold where_eq_1, range. apply NoDup_flat_map.
  - apply seq_NoDup.
  - intros s _. apply NoDup_map_inj; [intros x y [= ->]; reflexivity|].
    apply List.NoDup_filter, seq_NoDup.
  - intros s s' [z1 z2] _ _ H1 H2.
    apply in_map_iff in H1, H2.
    destruct H1 as (? & [= <- _] & _). destruct H2 as (? & [= <- _] & _).
    reflexivity.
Qed.

(** The positions [compose] walks are the cells equal to one, each once. *)
Lemma positions_of_ones_exact : exactly_the_ones arr (positions_of_ones arr).
Proof.
  split.
  - unfold positions_of_ones, range. apply NoDup_flat_map.
    + apply seq_NoDup.
    + intros b _. apply NoDup_flat_map.
      * apply seq_NoDup.
      * intros k _. apply NoDup_map_inj; [|apply NoDup_where_eq_1].
        intros [s p] [s' p'] [= -> ->]. reflexivity.
      * intros k k' z _ _ H1 H2.
        apply in_map_iff in H1, H2.
        destruct H1 as (? & <- & _). destruct H2 as (? & [= <- _ _] & _).
        reflexivity.
    + intros b b' z _ _ H1 H2.
      apply in_flat_map in H1, H2.
      destruct H1 as (? & _ & H1). destruct H2 as (? & _ & H2).
      apply in_map_iff in H1, H2.
      destruct H1 as (? & <- & _). destruct H2 as (? & [= <- _ _ _] & _).
      reflexivity.
  - intros b k s p. unfold positions_of_ones, range.
    rewrite in_flat_map. split.
    + intros (b' & Hb' & Hin). apply in_flat_map in Hin.
      destruct Hin as (k' & Hk' & Hin). apply in_map_iff in Hin.
      destruct Hin as ([s' p'] & [= <- <- <- <-] & Hin).
      apply in_where_eq_1 in Hin. apply in_seq in Hb', Hk'.
      destruct Hin as (? & ? & ?). repeat split; [lia | lia | | |]; assumption.
    + intros (Hb & Hk & Hs & Hp & Hq).
      exists b. split; [apply in_seq; lia|].
      apply in_flat_map. exists k. split; [apply in_seq; lia|].
      apply in_map_iff. exists (s, p). split; [reflexivity|].
      apply in_where_eq_1. repeat split; assumption.
Qed.

Lemma map_of_flat_map {A B C : Type} (f : B -> C) (g : A -> list B)
    (l : list A) :
  map f (flat_map g l) = flat_map (fun x => map f (g x)) l.
Proof.
  induction l as [|x l IH]; cbn.
  - reflexivity.
  - rewrite map_app, IH. reflexivity.
Qed.

Lemma expected_of_positions (self : AAEComposer) :
  flat_map (fun b =>
    flat_map (expected_of_block self arr b) (range (shape1 arr)))
    (range (shape0 arr))
  = map (expected_program_and_pitch self) (positions_of_ones arr).
Proof.
  unfold positions_of_ones. rewrite map_of_flat_map.
  apply flat_map_ext. intros b. rewrite map_of_flat_map.
  apply flat_map_ext. intros k.
  unfold expected_of_block. rewrite map_map. reflexivity.
Qed.


End Ones.

Section Sampling.
Context `{F : Framework}.
Variables (self : AAEComposer) (arr : ndarray) (loc scale : velocity_param).

Lemma asked_refl (st : locals) : asked loc scale st st.
Proof. split; [reflexivity|]. exists 0. cbn. rewrite app_nil_r. reflexivity. Qed.

Lemma asked_trans (a b c : locals) :
  asked loc scale a b -> asked loc scale b c -> asked loc scale a c.
Proof.
  intros (Hh1 & n1 & Ht1) (Hh2 & n2 & Ht2).
  split; [congruence|]. exists (n1 + n2).
  rewrite Ht2, Ht1, repeat_app, app_assoc. reflexivity.
Qed.

Lemma row_asked (prog pitch_ : Z) (st : locals) :
  asked loc scale st
    (snd ((velocity <- call_normal loc scale ;;
           append_note prog pitch_ velocity) st)).
Proof.
  pose proof (call_normal_outcome loc scale st) as Ho. cbv zeta in Ho.
  unfold bind. destruct (call_normal loc scale st) as [[v|ex] st1];
    cbn in Ho |- *; destruct Ho as (_ & _ & _ & _ & Hh & Ht);
    (split; [exact Hh|]); exists 1; exact Ht.
Qed.

(** A block asks for velocities and for nothing else, also when it
    raises. *)
Lemma block_asked (b k : nat) (st : locals) :
  asked loc scale st (snd (block self arr loc scale b k st)).
Proof.
  unfold block. cbv zeta.
  apply (bind_preserves (asked loc scale) asked_trans).
  - unfold lift. cbn. apply asked_refl.
  - intros prog st1.
    apply (bind_preserves (asked loc scale) asked_trans).
    + apply (for_preserves (asked loc scale) asked_refl asked_trans).
      intros s st2.
      apply (for_preserves (asked loc scale) asked_refl asked_trans).
      intros r st3. apply row_asked.
    + intros _ st2. unfold advance, modify. cbn.
      split; [reflexivity|]. exists 0. cbn. rewrite app_nil_r. reflexivity.
Qed.

Lemma batches_asked (st : locals) :
  asked loc scale st
    (snd (for_ (range (shape0 arr)) (fun batch =>
            for_ (range (shape1 arr)) (fun program_key =>
              block self arr loc scale batch program_key)) st)).
Proof.
  apply (for_preserves (asked loc scale) asked_refl asked_trans).
  intros b st1.
  apply (for_preserves (asked loc scale) asked_refl asked_trans).
  intros k st2. apply block_asked.
Qed.

Lemma sampling_refl (st : locals) : sampling loc scale st st.
Proof.
  split; [reflexivity|]. exists 0. cbn. rewrite app_nil_r, Nat.add_0_r.
  split; reflexivity.
Qed.

Lemma sampling_trans (a b c : locals) :
  sampling loc scale a b -> sampling loc scale b c -> sampling loc scale a c.
Proof.
  intros (Hh1 & n1 & Ht1 & Hl1) (Hh2 & n2 & Ht2 & Hl2).
  split; [congruence|]. exists (n1 + n2).
  rewrite Ht2, Ht1, Hl2, Hl1, repeat_app, app_assoc. split; [reflexivity | lia].
Qed.

Lemma row_sampling (prog pitch_ : Z) (st st' : locals) :
  (velocity <- call_normal loc scale ;;
   append_note prog pitch_ velocity) st = (Ok tt, st') ->
  sampling loc scale st st'.
Proof.
  intros H. apply bind_ok_inv in H. destruct H as (v & st1 & Hc & Ha).
  pose proof (call_normal_outcome loc scale st) as Ho. cbv zeta in Ho.
  rewrite Hc in Ho. cbn in Ho. destruct Ho as (_ & Hg & _ & _ & Hh & Ht).
  unfold append_note, modify in Ha. injection Ha as <-.
  unfold sampling. cbn [generated_list l_env].
  split; [exact Hh|]. exists 1. split; [exact Ht|].
  rewrite length_app, Hg. reflexivity.
Qed.

(** A block that runs through has asked for one velocity per note it
    appended. *)
Lemma block_sampling (b k : nat) (st st' : locals) :
  block self arr loc scale b k st = (Ok tt, st') ->
  sampling loc scale st st'.
Proof.
  unfold block. cbv zeta. intros H.
  apply bind_ok_inv in H. destruct H as (prog & st0 & Hidx & H).
  unfold lift in Hidx. injection Hidx as _ <-.
  apply bind_ok_inv in H. destruct H as ([] & st1 & Hsteps & Hadv).
  unfold advance, modify in Hadv. injection Hadv as <-.
  eapply sampling_trans; [|split; [reflexivity|]; exists 0; cbn;
    rewrite app_nil_r, Nat.add_0_r; split; reflexivity].
  revert Hsteps.
  apply (for_returns_preserves (sampling loc scale) sampling_refl sampling_trans).
  intros s st2 st3.
  apply (for_returns_preserves (sampling loc scale) sampling_refl sampling_trans).
  intros r st4 st5. apply row_sampling.
Qed.

Lemma batches_sampling (st st' : locals) :
  for_ (range (shape0 arr)) (fun batch =>
    for_ (range (shape1 arr)) (fun program_key =>
      block self arr loc scale batch program_key)) st = (Ok tt, st') ->
  sampling loc scale st st'.
Proof.
  apply (for_returns_preserves (sampling loc scale) sampling_refl sampling_trans).
  intros b st1 st2.
  apply (for_returns_preserves (sampling loc scale) sampling_refl sampling_trans).
  intros k st3 st4. apply block_sampling.
Qed.

End Sampling.

Section Generate.
Context `{F : Framework}.
Variables (self : AAEComposer) (velocity_mean velocity_std : option Q).

Local Abbreviation programs := (program_list_of (__noise_sampler self)).
Local Abbreviation loc := (velocity_loc self velocity_mean).
Local Abbreviation scale := (velocity_scale self velocity_std).

(** The first half of [compose] on a live generative model: one [draw()],
    then the two loops on the drawn array. *)
Lemma compose_generate_loops (e : env) (o : GenerativeModel) :
  heap e !! __generative_model self = Some o ->
  compose_generate self velocity_mean velocity_std e =
    match
      for_ (range (shape0 (fst (draw o (hid e))))) (fun batch =>
        for_ (range (shape1 (fst (draw o (hid e))))) (fun program_key =>
          block self (fst (draw o (hid e))) loc scale batch program_key))
        {| generated_list := []; l_start := 0;
           l_end := __time_fraction self;
           l_env := Env (heap e) (snd (draw o (hid e)))
                      (trace e ++ [EvDraw (__generative_model self)]) |}
    with
    | (Ok _, l) => (Ok (generated_list l), l_env l)
    | (Raise ex, l) => (Raise ex, l_env l)
    end.
Proof.
  intros Ho. unfold compose_generate, bind, call_draw. rewrite Ho.
  destruct (draw o (hid e)) as [arr h]. cbn [fst snd].
  fold (velocity_loc self velocity_mean).
  fold (velocity_scale self velocity_std).
  destruct (for_ _ _ _) as [[[]|ex] l]; reflexivity.
Qed.

(** What the first half of [compose] asks of the frameworks. *)
Lemma compose_generate_trace (e : env) (o : GenerativeModel) :
  heap e !! __generative_model self = Some o ->
  let out := compose_generate self velocity_mean velocity_std e in
  heap (snd out) = heap e /\
  exists n,
    trace (snd out) =
      trace e ++
        EvDraw (__generative_model self)
        :: repeat (EvNormal (velocity_loc self velocity_mean)
                     (velocity_scale self velocity_std)) n /\
    forall notes, fst out = Ok notes -> length notes = n.
Proof.
  intros Ho out. subst out. rewrite (compose_generate_loops e o Ho).
  set (arr := fst (draw o (hid e))).
  set (l0 := {| generated_list := []; l_start := 0;
                l_end := __time_fraction self;
                l_env := Env (heap e) (snd (draw o (hid e)))
                           (trace e ++ [EvDraw (__generative_model self)]) |}).
  pose proof (batches_asked self arr loc scale l0) as Ha.
  pose proof (batches_sampling self arr loc scale l0) as Hs.
  destruct (for_ _ _ l0) as [[[]|ex] st]; cbn [fst snd] in *.
  - destruct (Hs st eq_refl) as (Hh & n & Ht & Hl).
    split; [exact Hh|]. exists n. split.
    + rewrite Ht. cbn. rewrite <- app_assoc. reflexivity.
    + intros notes [= <-]. exact Hl.
  - destruct Ha as (Hh & n & Ht).
    split; [exact Hh|]. exists n. split.
    + rewrite Ht. cbn. rewrite <- app_assoc. reflexivity.
    + intros notes H. discriminate H.
Qed.

Lemma draws_of_samples (n : nat) :
  draws (repeat (EvNormal loc scale) n) = [].
Proof. induction n as [|n IH]; cbn; [reflexivity | exact IH]. Qed.

(** Whatever its outcome, the first half of [compose] has called [draw()]
    once, on the stored generative model. *)
Lemma compose_generate_draws (e : env) (o : GenerativeModel) :
  heap e !! __generative_model self = Some o ->
  draws (trace (snd (compose_generate self velocity_mean velocity_std e)))
    = draws (trace e) ++ [EvDraw (__generative_model self)].
Proof.
  intros Ho. destruct (compose_generate_trace e o Ho) as (_ & n & Ht & _).
  rewrite Ht, draws_app. cbn. rewrite draws_of_samples. reflexivity.
Qed.

(** The note list of a run that returns, block by block. *)
Lemma compose_generate_blocks (e e' : env) (o : GenerativeModel)
    (notes : list note) :
  heap e !! __generative_model self = Some o ->
  compose_generate self velocity_mean velocity_std e = (Ok notes, e') ->
  let arr := fst (draw o (hid e)) in
  exists blocks,
    notes = concat blocks /\
    length blocks = shape0 arr * shape1 arr /\
    Permutation (map program_and_pitch (concat blocks))
      (map (expected_program_and_pitch self) (positions_of_ones arr)) /\
    forall b k, b < shape0 arr -> k < shape1 arr ->
      exists blk, blocks !! (b * shape1 arr + k) = Some blk /\
        block_of self arr b k (b * shape1 arr + k) blk.
Proof.
  intros Ho Hrun arr. rewrite (compose_generate_loops e o Ho) in Hrun.
  fold arr in Hrun.
  destruct (for_ _ _ _) as [[[]|ex] st] eqn:Hfor; [|discriminate].
  injection Hrun as <- <-.
  destruct (run_batches self arr loc scale (shape0 arr) 0 _ st Hfor)
    as (bls & Hran & Hlen & Hperm & Hall); [reflexivity | reflexivity |].
  destruct Hran as (Hg & _).
  exists bls. split; [exact Hg|]. split; [exact Hlen|]. split.
  - rewrite Hperm. fold (range (shape0 arr)).
    rewrite expected_of_positions. reflexivity.
  - intros b k Hb Hk. destruct (Hall b k Hb Hk) as (blk & Hlk & Hblk).
    exists blk. split; assumption.
Qed.

(** Why a run raises: a program row of some batch is not listed, or a cell
    is equal to one and the velocity cannot be sampled. *)
Lemma compose_generate_raises (e e' : env) (o : GenerativeModel) (ex : exn) :
  heap e !! __generative_model self = Some o ->
  compose_generate self velocity_mean velocity_std e = (Raise ex, e') ->
  let arr := fst (draw o (hid e)) in
  (ex = IndexError /\ 0 < shape0 arr /\ length programs < shape1 arr) \/
  (ex = sampling_error scale /\ can_sample loc scale = false /\
   has_a_one arr).
Proof.
  intros Ho Hrun arr. rewrite (compose_generate_loops e o Ho) in Hrun.
  fold arr in Hrun.
  destruct (for_ _ _ _) as [[[]|ex'] st] eqn:Hfor; [discriminate|].
  injection Hrun as -> _.
  apply for_raise_inv in Hfor. destruct Hfor as (b & st1 & Hb & Hfor).
  apply for_raise_inv in Hfor. destruct Hfor as (k & st2 & Hk & Hblock).
  apply in_seq in Hb, Hk.
  apply block_raise_inv in Hblock.
  destruct Hblock as [(-> & Hlen)|(-> & Hcan & Hone)].
  - left. split; [reflexivity|]. lia.
  - right. split; [reflexivity|]. split; [exact Hcan|].
    destruct (where_eq_1 arr b k) as [|[s p] l] eqn:Hw; [contradiction|].
    assert (Hin : In (s, p) (where_eq_1 arr b k))
      by (rewrite Hw; left; reflexivity).
    apply in_where_eq_1 in Hin. destruct Hin as (Hs & Hp & Hq).
    exists b, k, s, p. repeat split; [lia | lia | | |]; assumption.
Qed.

(** When a run returns. *)
Lemma compose_generate_returns (e : env) (o : GenerativeModel) :
  heap e !! __generative_model self = Some o ->
  let arr := fst (draw o (hid e)) in
  shape0 arr = 0 \/ shape1 arr <= length programs ->
  can_sample loc scale = true \/ ~ has_a_one arr ->
  exists notes e',
    compose_generate self velocity_mean velocity_std e = (Ok notes, e').
Proof.
  intros Ho arr Hpl Hcan.
  destruct (compose_generate self velocity_mean velocity_std e)
    as [[notes|ex] e'] eqn:Hrun.
  - exists notes, e'. reflexivity.
  - exfalso.
    destruct (compose_generate_raises e e' o ex Ho Hrun)
      as [(_ & Hb & Hk)|(_ & Hc & Hone)]; subst arr.
    + lia.
    + destruct Hcan as [Hcan|Hno]; [congruence | contradiction].
Qed.


(** C6, as the code has it.  The note list [compose] builds is the
    concatenation of one block of notes per (batch, program_key), in loop
    order.  Block number [batch * shape[1] + program_key] holds the notes
    of all the cells equal to one of that batch and program, whatever their
    seq index; each of them starts at what [start], from 0, has become after
    [time_fraction] was added to it once for every block before, and ends at
    what [end], from [time_fraction], has become after as many additions.
    These additions are additions of floats, and round.  When adding
    [time_fraction] to 0 gives [time_fraction], the end of a note is its
    start plus [time_fraction], rounded. *)
Theorem compose_times_go_by_block (e : env) (o : GenerativeModel) :
  heap e !! __generative_model self = Some o ->
  let arr := fst (draw o (hid e)) in
  (shape1 arr <= length programs -> can_sample loc scale = true ->
   exists notes e',
     compose_generate self velocity_mean velocity_std e = (Ok notes, e')) /\
  forall notes e',
    compose_generate self velocity_mean velocity_std e = (Ok notes, e') ->
    exists blocks,
      notes = concat blocks /\
      length blocks = shape0 arr * shape1 arr /\
      forall b k, b < shape0 arr -> k < shape1 arr ->
        exists blk, blocks !! (b * shape1 arr + k) = Some blk /\
          Permutation (map pitch blk)
            (map (fun sp => (Z.of_nat (snd sp) + __min_pitch self)%Z)
               (where_eq_1 arr b k)) /\
          Forall (fun n =>
                    start n = after_rounds (__time_fraction self)
                                (b * shape1 arr + k) 0 /\
                    end_ n = after_rounds (__time_fraction self)
                               (b * shape1 arr + k) (__time_fraction self) /\
                    (Float64.add 0 (__time_fraction self)
                       = __time_fraction self ->
                     end_ n = Float64.add (start n) (__time_fraction self)))
            blk.
Proof.
  intros Ho arr. split.
  - intros Hpl Hcan. apply (compose_generate_returns e o Ho);
      [right; exact Hpl | left; exact Hcan].
  - intros notes e' Hrun.
    destruct (compose_generate_blocks e e' o notes Ho Hrun)
      as (blocks & Hnotes & Hlen & _ & Hall).
    exists blocks. split; [exact Hnotes|]. split; [exact Hlen|].
    intros b k Hb Hk. destruct (Hall b k Hb Hk) as (blk & Hlk & Hp & Hf).
    exists blk. split; [exact Hlk|]. split; [exact Hp|].
    eapply List.Forall_impl; [|exact Hf]. cbn.
    intros n (_ & Hs & He). split; [exact Hs|]. split; [exact He|].
    intros H0. rewrite He, Hs. apply after_rounds_end. exact H0.
Qed.

End Generate.

(* ===================================================================== *)
(** ** Theorems: [compose], from the note list to the saved frame *)
(* ===================================================================== *)

Section Dedup.
Context {A : Type} (eqb : A -> A -> bool).

Lemma filter_sublist (f : A -> bool) (l : list A) : sublist (List.filter f l) l.
Proof.
  induction l as [|x l IH]; cbn.
  - constructor.
  - destruct (f x); [apply sublist_skip | apply sublist_cons]; exact IH.
Qed.

Lemma dedup_by_sublist (l : list A) : sublist (dedup_by eqb l) l.
Proof.
  induction l as [|x l IH]; cbn.
  - constructor.
  - apply sublist_skip. etransitivity; [apply filter_sublist | exact IH].
Qed.

Lemma ForallOrdPairs_filter (R : A -> A -> Prop) (f : A -> bool) (l : list A) :
  ForallOrdPairs R l -> ForallOrdPairs R (List.filter f l).
Proof.
  induction 1 as [|x l Hx Hl IH]; cbn.
  - constructor.
  - destruct (f x); [|exact IH].
    constructor; [|exact IH].
    apply List.Forall_forall. intros y Hy. apply filter_In in Hy.
    rewrite List.Forall_forall in Hx. apply Hx, Hy.
Qed.

Lemma dedup_by_pairs (l : list A) :
  ForallOrdPairs (fun a b => eqb a b = false) (dedup_by eqb l).
Proof.
  induction l as [|x l IH]; cbn.
  - constructor.
  - constructor.
    + apply List.Forall_forall. intros y Hy. apply filter_In in Hy.
      destruct Hy as [_ Hy]. apply negb_true_iff in Hy. exact Hy.
    + apply ForallOrdPairs_filter. exact IH.
Qed.

Lemma dedup_by_first (pre suf : list A) (r : A) :
  Forall (fun x => eqb x r = false) pre ->
  In r (dedup_by eqb (pre ++ r :: suf)).
Proof.
  induction 1 as [|x pre Hx Hpre IH]; cbn.
  - left. reflexivity.
  - right. apply filter_In. split; [exact IH|]. rewrite Hx. reflexivity.
Qed.

End Dedup.

Lemma in_drop_duplicates_pitch (ps : list Z) (p : Z) :
  In p (drop_duplicates_pitch ps) <-> In p ps.
Proof.
  unfold drop_duplicates_pitch. induction ps as [|x ps IH]; cbn.
  - reflexivity.
  - rewrite filter_In, IH, negb_true_iff, Z.eqb_neq.
    destruct (Z.eq_dec x p); intuition congruence.
Qed.

Lemma NoDup_drop_duplicates_pitch (ps : list Z) :
  List.NoDup (drop_duplicates_pitch ps).
Proof.
  unfold drop_duplicates_pitch.
  pose proof (dedup_by_pairs Z.eqb ps) as H.
  induction H as [|x l Hx Hl IH]; constructor; [|exact IH].
  intros Hin. rewrite List.Forall_forall in Hx.
  apply Hx in Hin. rewrite Z.eqb_refl in Hin. discriminate.
Qed.

Lemma start_end_leb_iff (a b : note) : start_end_leb a b = true <-> lex_le a b.
Proof.
  unfold start_end_leb, lex_le.
  destruct (start a ?= start b)%Q eqn:Hc.
  - apply Qeq_alt in Hc. rewrite Qle_bool_iff. split.
    + intros H. right. split; assumption.
    + intros [H|[_ H]]; [lra | exact H].
  - apply Qlt_alt in Hc. split; [intros _; left; exact Hc | reflexivity].
  - apply Qgt_alt in Hc. split; [discriminate|]. intros [H|[H _]]; lra.
Qed.

Lemma start_end_leb_total (a b : note) :
  start_end_leb a b = true \/ start_end_leb b a = true.
Proof.
  rewrite !start_end_leb_iff. unfold lex_le.
  destruct (Q_dec (start a) (start b)) as [[H|H]|H].
  - left. left. exact H.
  - right. left. exact H.
  - destruct (Qlt_le_dec (end_ b) (end_ a)) as [H'|H'].
    + right. right. split; [symmetry; exact H | lra].
    + left. right. split; assumption.
Qed.

Lemma start_end_leb_trans (a b c : note) :
  start_end_leb a b = true -> start_end_leb b c = true ->
  start_end_leb a c = true.
Proof.
  rewrite !start_end_leb_iff. unfold lex_le.
  intros [H1|[H1 H1']] [H2|[H2 H2']].
  - left. lra.
  - left. lra.
  - left. lra.
  - right. split; lra.
Qed.

Lemma add_next_lookup (srt : list note) (i : nat) (n : note) :
  srt !! i = Some n ->
  add_next srt !! i =
    Some {| r_note := n;
            next_start := start <$> srt !! S i;
            next_end := end_ <$> srt !! S i |}.
Proof.
  revert i. induction srt as [|x srt IH]; intros i Hi; [discriminate|].
  destruct i as [|i]; cbn in *.
  - injection Hi as ->. destruct srt; reflexivity.
  - apply IH. exact Hi.
Qed.

Lemma length_add_next (srt : list note) : length (add_next srt) = length srt.
Proof. induction srt as [|x srt IH]; cbn; [reflexivity | rewrite IH; reflexivity]. Qed.

Lemma extend_end_extended (srt : list note) :
  extended srt (map extend_end (add_next srt)).
Proof.
  split; [rewrite length_map; apply length_add_next|].
  intros i n Hi.
  exists (extend_end {| r_note := n;
                        next_start := start <$> srt !! S i;
                        next_end := end_ <$> srt !! S i |}).
  split.
  - rewrite list_lookup_fmap, (add_next_lookup srt i n Hi). reflexivity.
  - unfold extend_end. cbn.
    destruct (srt !! S i) as [n'|] eqn:Hnext; cbn.
    + destruct (Qeq_bool (end_ n) (start n')) eqn:Hq; cbn;
        [apply Qeq_bool_iff in Hq | apply Qeq_bool_neq in Hq];
        repeat split; try reflexivity; try discriminate;
        intros n'' Heq Hc; injection Heq as <-;
        first [reflexivity | contradiction].
    + repeat split; try reflexivity; discriminate.
Qed.

Lemma StronglySorted_weaken {A : Type} (R R' : A -> A -> Prop) (l : list A) :
  (forall a b, R a b -> R' a b) -> StronglySorted R l -> StronglySorted R' l.
Proof.
  intros HR. induction 1 as [|x l Hs IH Hx]; constructor.
  - exact IH.
  - eapply List.Forall_impl; [|exact Hx]. intros y. apply HR.
Qed.

Lemma same_end_false (a b : frame_row) :
  same_end a b = false <-> ends_differ a b.
Proof.
  unfold same_end, ends_differ. split.
  - apply Qeq_bool_neq.
  - intros H. destruct (Qeq_bool _ _) eqn:Hq; [|reflexivity].
    apply Qeq_bool_iff in Hq. contradiction.
Qed.

Lemma dedup_by_same_end_kept_first (ext : list frame_row) :
  kept_first ext (dedup_by same_end ext).
Proof.
  split; [apply dedup_by_sublist|]. split.
  - pose proof (dedup_by_pairs same_end ext) as H.
    induction H as [|x l Hx Hl IH]; constructor; [|exact IH].
    eapply List.Forall_impl; [|exact Hx]. intros y. apply same_end_false.
  - intros pre r suf -> Hpre. apply dedup_by_first.
    eapply List.Forall_impl; [|exact Hpre]. intros x. apply same_end_false.
Qed.

(** One pitch: its notes in (start, end) order, ends extended, repeated
    ends dropped. *)
Lemma pitch_group_merged (df : list note) (p : Z) :
  merged_group df p (pitch_group df p).
Proof.
  exists (sort_by start_end_leb (List.filter (fun n => (pitch n =? p)%Z) df)),
         (map extend_end
            (add_next
               (sort_by start_end_leb
                  (List.filter (fun n => (pitch n =? p)%Z) df)))).
  split; [apply sort_by_Permutation|]. split.
  - eapply StronglySorted_weaken; [|apply sort_by_sorted].
    + intros a b. apply start_end_leb_iff.
    + apply start_end_leb_total.
    + apply start_end_leb_trans.
  - split; [apply extend_end_extended|].
    apply dedup_by_same_end_kept_first.
Qed.

Section Save.
Context `{F : Framework}.

(** C2.  When there is a note to save, [compose] hands [save] one frame,
    under [file_path], that is sorted by (start, end) and is made of one
    group per distinct pitch of the note list; the group of a pitch is got
    from the notes of that pitch taken in (start, end) order, by giving every
    note whose end equals the start of the note right after it that note's
    end, and then keeping only the first row of each end value. *)
Theorem compose_save_merges_and_sorts
    (file_path : string) (generated_midi_df : list note) (e : env) :
  0 < length generated_midi_df ->
  exists pitches groups note_df,
    compose_save file_path generated_midi_df e
      = (Ok tt, Env (heap e) (hid e) (trace e ++ [EvSave file_path note_df])) /\
    List.NoDup pitches /\
    (forall p, In p pitches <-> exists n, In n generated_midi_df /\ pitch n = p) /\
    Forall2 (merged_group generated_midi_df) pitches groups /\
    Permutation note_df (concat groups) /\
    StronglySorted row_le note_df.
Proof.
  intros Hlen.
  set (pitches := drop_duplicates_pitch (map pitch generated_midi_df)).
  set (groups := map (pitch_group generated_midi_df) pitches).
  set (leb := fun a b : frame_row => start_end_leb (r_note a) (r_note b)).
  exists pitches, groups, (sort_by leb (concat groups)).
  split; [|split; [|split; [|split; [|split]]]].
  - unfold compose_save. fold pitches. fold groups.
    assert (Hne : exists g gs, groups = g :: gs).
    { subst groups pitches. destruct generated_midi_df as [|n l]; [cbn in Hlen; lia|].
      cbn. eauto. }
    destruct Hne as (g & gs & Hg).
    erewrite bind_ok; [|unfold lift, concat_frames; rewrite Hg, <- Hg; reflexivity].
    reflexivity.
  - apply NoDup_drop_duplicates_pitch.
  - intros p. subst pitches. rewrite in_drop_duplicates_pitch, in_map_iff.
    split; intros (n & H1 & H2); exists n; split; assumption.
  - subst groups. clear. induction pitches as [|p ps IH]; cbn; constructor.
    + apply pitch_group_merged.
    + exact IH.
  - apply sort_by_Permutation.
  - eapply StronglySorted_weaken; [|apply sort_by_sorted].
    + intros a b. apply start_end_leb_iff.
    + intros a b. apply start_end_leb_total.
    + intros a b c. apply start_end_leb_trans.
Qed.

(** With no note at all there is nothing to concatenate: [pd.concat] raises
    and [save] is not reached. *)
Lemma compose_save_without_notes (file_path : string) (e : env) :
  compose_save file_path [] e
    = (Raise (ValueError "No objects to concatenate"), e).
Proof. reflexivity. Qed.

End Save.

(* ===================================================================== *)
(** ** The composer on the sample framework *)
(* ===================================================================== *)

Section OnTheSample.
#[local] Existing Instance Sample.framework.

(** C4, at a failing input.  The caller passes one MIDI file and a noise
    sampler of their own: [__init__] raises [TypeError] where it counts the
    programs, because what it puts in the set are the [program] columns of
    the frames and not the program numbers.  The frame has one distinct
    program, so the channel ought to be 1. *)
Theorem init_with_a_given_noise_sampler_raises :
  __init__ ["a.mid"] 10 4 1 24 108 (1 # 100000) None None
    (Some (GivenNoiseSampler 1 [0%Z])) None None None Sample.empty_env
  = (Raise (TypeError "'Series' objects are mutable, thus they cannot be hashed"),
     Sample.empty_env) /\
  length (dedup_by Z.eqb (flat_map (map program) (map extract ["a.mid"]))) = 1.
Proof. split; reflexivity. Qed.

(** With the default noise sampler the same call returns a composer. *)
Example init_with_the_default_noise_sampler_returns :
  exists self e',
    __init__ ["a.mid"] 10 4 1 24 108 (1 # 100000) None None None None None
      None Sample.empty_env = (Ok self, e') /\
    __noise_sampler self
      = BarNoiseSampler (SamplerArgs [Sample.one_note_frame] 10 4 1 24 108).
Proof. eexists _, _. split; [vm_compute; reflexivity | reflexivity]. Qed.

Lemma init_assigns_the_noise_sampler_witness :
  exists self e' o,
    __init__ ["a.mid"] 10 4 1 24 108 (1 # 100000) None None None
      (Some 7%positive) None None Sample.env_with_model = (Ok self, e') /\
    __generative_model self = 7%positive /\
    heap e' !! 7%positive = Some o /\
    AAE.noise_sampler o = Some (__noise_sampler self).
Proof.
  pose proof (init_assigns_the_noise_sampler ["a.mid"] 10 4 1 24 108
                (1 # 100000) None None None (Some 7%positive) None None
                Sample.env_with_model) as H.
  destruct (__init__ ["a.mid"] 10 4 1 24 108 (1 # 100000) None None None
              (Some 7%positive) None None Sample.env_with_model)
    as [[self|ex] e'] eqn:Hinit.
  - destruct H as (_ & (o & Ho & Hns) & Hg).
    + intros g [= <-]. exists (Sample.given 1). reflexivity.
    + destruct (Hg 7%positive eq_refl) as [Hself _].
      exists self, e', o. rewrite <- Hself at 2. repeat split; assumption.
  - exfalso. vm_compute in Hinit. discriminate Hinit.
Defined.

(** The sample composer is the composer [__init__] builds around the
    caller's generative model; the model has got the noise sampler. *)
Example init_builds_the_sample_composer :
  __init__ ["a.mid"] 10 2 (1 # 2) 24 27 (1 # 100000) None None None
    (Some 7%positive) (Some (GivenDiscriminativeModel 1)) None
    Sample.env_with_bars
  = (Ok Sample.composer, Sample.env_of_composer).
Proof. vm_compute. reflexivity. Qed.



(** C6, at a counterexample.  The time fraction is the float [0.1] and the
    drawn array has seven batches of one program row, every cell equal to
    one: the note of the last block, with six blocks before it, starts at
    [0.1] added six times, which is the float [0.6]; six times [0.1] is
    another number, and rounds to the float next to it. *)
Lemma compose_start_is_not_a_product :
  exists self e1 self' e2 notes e3 n,
    __init__ ["a.mid"] 10 4 (Float64.double (1 # 10)) 24 27 (1 # 100000)
      None None None (Some 7%positive) None None Sample.env_with_seven
      = (Ok self, e1) /\
    learn 100 1 (self, e1) = (Ok tt, (self', e2)) /\
    compose_generate self' (Some 64%Q) (Some 2%Q) e2 = (Ok notes, e3) /\
    length notes = 7 /\
    notes !! 6 = Some n /\
    start n = Float64.double (6 # 10) /\
    ~ (start n == 6 * __time_fraction self')%Q /\
    ~ (start n == Float64.mul 6 (__time_fraction self'))%Q.
Proof.
  eexists _, _, _, _, _, _, _.
  split; [vm_compute; reflexivity|].
  split; [vm_compute; reflexivity|].
  split; [vm_compute; reflexivity|].
  split; [reflexivity|].
  split; [reflexivity|].
  split; [vm_compute; reflexivity|].
  split; intros H; apply Qeq_bool_iff in H; vm_compute in H; discriminate H.
Qed.

Lemma compose_times_go_by_block_witness :
  exists blocks,
    heap Sample.env_of_composer !! __generative_model Sample.composer
      = Some (Sample.given_with 2 (__noise_sampler Sample.composer)) /\
    fst (compose_generate Sample.composer (Some 64%Q) (Some 2%Q)
           Sample.env_of_composer) = Ok (concat blocks) /\
    length blocks = 4.
Proof.
  assert (Ho : heap Sample.env_of_composer !! __generative_model Sample.composer
               = Some (Sample.given_with 2 (__noise_sampler Sample.composer)))
    by reflexivity.
  destruct (compose_times_go_by_block Sample.composer (Some 64%Q) (Some 2%Q)
              Sample.env_of_composer _ Ho) as (Hret & Hblocks).
  destruct Hret as (notes & e' & Hrun); [cbn; lia | reflexivity |].
  destruct (Hblocks notes e' Hrun) as (blocks & Hnotes & Hlen & _).
  exists blocks. split; [exact Ho|]. split.
  - rewrite Hrun. cbn. rewrite Hnotes. reflexivity.
  - exact Hlen.
Defined.

Lemma compose_save_merges_and_sorts_witness :
  exists note_df,
    compose_save "out.mid"
      [Note 0 1 2 60 70; Note 0 0 1 60 71; Note 5 0 1 62 72; Note 0 2 3 60 73]
      Sample.empty_env
    = (Ok tt, Env ∅ 0 [EvSave "out.mid" note_df]) /\
    map (fun r => (start (r_note r), end_ (r_note r), pitch (r_note r))) note_df
    = [(0, 1, 62%Z); (0, 2, 60%Z); (1, 3, 60%Z)]%Q.
Proof.
  destruct (compose_save_merges_and_sorts "out.mid"
              [Note 0 1 2 60 70; Note 0 0 1 60 71; Note 5 0 1 62 72;
               Note 0 2 3 60 73] Sample.empty_env)
    as (pitches & groups & note_df & Hrun & _).
  - cbn. lia.
  - exists note_df. split; [exact Hrun|].
    pose proof Hrun as Hc. vm_compute in Hc.
    injection Hc as <-. reflexivity.
Defined.

End OnTheSample.

(* ===================================================================== *)
(** ** More on [compose]: what it asks of the frameworks *)
(* ===================================================================== *)

Section Asked.
Context `{F : Framework}.
Variables (self : AAEComposer) (velocity_mean velocity_std : option Q).

Lemma saves_of_samples (loc scale : velocity_param) (n : nat) :
  saves (repeat (EvNormal loc scale) n) = [].
Proof. induction n as [|n IH]; cbn; [reflexivity | exact IH]. Qed.

(** X4.  Whatever its outcome, the first half of [compose] on a live
    generative model calls [draw()] once, then [np.random.normal] with the
    location and scale of the call (the caller's numbers, or the statistics
    over the extracted frames), and nothing else: it saves nothing and
    leaves the object store alone.  When it returns the notes, there are as
    many of them as velocities sampled. *)
Theorem compose_generate_asks_for_velocities_only
    (e : env) (o : GenerativeModel) :
  heap e !! __generative_model self = Some o ->
  let out := compose_generate self velocity_mean velocity_std e in
  heap (snd out) = heap e /\
  saves (trace (snd out)) = saves (trace e) /\
  exists n,
    trace (snd out) =
      trace e ++
        EvDraw (__generative_model self)
        :: repeat (EvNormal (velocity_loc self velocity_mean)
                     (velocity_scale self velocity_std)) n /\
    forall notes, fst out = Ok notes -> length notes = n.
Proof.
  intros Ho out.
  destruct (compose_generate_trace self velocity_mean velocity_std e o Ho)
    as (Hheap & n & Htrace & Hn).
  fold out in Hheap, Htrace, Hn.
  split; [exact Hheap|]. split.
  - rewrite Htrace. unfold saves at 1. rewrite List.filter_app. cbn.
    fold (saves (trace e)).
    fold (saves (repeat (EvNormal (velocity_loc self velocity_mean)
                           (velocity_scale self velocity_std)) n)).
    rewrite saves_of_samples. apply app_nil_r.
  - exists n. split; [exact Htrace | exact Hn].
Qed.

End Asked.

Section Whole.
Context `{F : Framework}.
Variables (self : AAEComposer) (velocity_mean velocity_std : option Q).

Local Abbreviation programs := (program_list_of (__noise_sampler self)).
Local Abbreviation loc := (velocity_loc self velocity_mean).
Local Abbreviation scale := (velocity_scale self velocity_std).

(** [compose] is its two halves in a row, on an unchanged composer. *)
Lemma compose_halves (file_path : string) (e : env) :
  compose file_path velocity_mean velocity_std (self, e) =
    match compose_generate self velocity_mean velocity_std e with
    | (Ok notes, e1) =>
        match compose_save file_path notes e1 with
        | (r, e2) => (r, (self, e2))
        end
    | (Raise ex, e1) => (Raise ex, (self, e1))
    end.
Proof.
  unfold compose, self_, on_env, bind. cbn.
  destruct (compose_generate self velocity_mean velocity_std e)
    as [[notes|ex] e1]; [|reflexivity].
  destruct (compose_save file_path notes e1) as [r e2]. reflexivity.
Qed.

(** What [save] is handed when there is a note. *)
Lemma compose_save_nonempty (file_path : string) (df : list note) (e : env) :
  0 < length df ->
  compose_save file_path df e =
    (Ok tt,
     Env (heap e) (hid e)
       (trace e ++
          [EvSave file_path
             (sort_by (fun a b => start_end_leb (r_note a) (r_note b))
                (concat (map (pitch_group df)
                           (drop_duplicates_pitch (map pitch df)))))])).
Proof.
  intros Hlen. unfold compose_save.
  destruct df as [|n l]; [cbn in Hlen; lia|]. reflexivity.
Qed.

Lemma no_one_no_position (arr : ndarray) :
  ~ has_a_one arr -> positions_of_ones arr = [].
Proof.
  intros Hno. destruct (positions_of_ones arr) as [|[[[b k] s] p] l] eqn:Hp;
    [reflexivity|].
  exfalso. apply Hno. exists b, k, s, p.
  apply (positions_of_ones_exact arr). rewrite Hp. left. reflexivity.
Qed.

Lemma a_one_a_position (arr : ndarray) :
  has_a_one arr -> 0 < length (positions_of_ones arr).
Proof.
  intros (b & k & s & p & H).
  apply (positions_of_ones_exact arr) in H.
  destruct (positions_of_ones arr); [destruct H | cbn; lia].
Qed.

(** X1.  When the drawn array has a cell equal to one, the noise sampler
    lists a program for every program row and a velocity can be sampled
    (the scale is not negative and neither parameter is NaN), the
    generative model being a live object, [compose] returns normally and
    changes neither the composer nor the object store; all it asks of the
    frameworks is one [draw()], then one velocity per note, then one [save]
    under [file_path], of a frame sorted by (start, end). *)
Theorem compose_draws_samples_and_saves_once
    (file_path : string) (e : env) (o : GenerativeModel) :
  heap e !! __generative_model self = Some o ->
  shape1 (fst (draw o (hid e))) <= length programs ->
  can_sample loc scale = true ->
  has_a_one (fst (draw o (hid e))) ->
  exists n note_df e',
    compose file_path velocity_mean velocity_std (self, e)
      = (Ok tt, (self, e')) /\
    heap e' = heap e /\
    0 < n /\
    trace e' =
      trace e ++
        EvDraw (__generative_model self)
        :: repeat (EvNormal loc scale) n ++ [EvSave file_path note_df] /\
    StronglySorted row_le note_df.
Proof.
  intros Ho Hpl Hcan Hone.
  destruct (compose_generate_returns self velocity_mean velocity_std e o Ho)
    as (notes & e1 & Hrun); [right; exact Hpl | left; exact Hcan |].
  destruct (compose_generate_blocks self velocity_mean velocity_std e e1 o
              notes Ho Hrun) as (blocks & Hnotes & _ & Hperm & _).
  destruct (compose_generate_trace self velocity_mean velocity_std e o Ho)
    as (Hheap & n & Htrace & Hn).
  rewrite Hrun in Hheap, Htrace, Hn. cbn in Hheap, Htrace, Hn.
  specialize (Hn _ eq_refl).
  assert (Hpos : 0 < n).
  { rewrite <- Hn, Hnotes, <- (length_map program_and_pitch),
      (Permutation_length Hperm), length_map.
    apply a_one_a_position. exact Hone. }
  eexists n, _, _. split; [|split; [|split; [|split]]].
  - rewrite compose_halves, Hrun, compose_save_nonempty by lia. reflexivity.
  - exact Hheap.
  - exact Hpos.
  - cbn. rewrite Htrace, <- app_assoc. reflexivity.
  - eapply StronglySorted_weaken; [|apply sort_by_sorted].
    + intros a b. apply start_end_leb_iff.
    + intros a b. apply start_end_leb_total.
    + intros a b c. apply start_end_leb_trans.
Qed.

(** X2.  When no cell of the drawn array is equal to one (the generative
    model being a live object and the noise sampler listing a program for
    every program row), [compose] raises [ValueError] at [pd.concat]: it
    has called [draw()] once, sampled no velocity and saved nothing, and the
    composer and the store are as before. *)
Theorem compose_without_ones_raises
    (file_path : string) (e : env) (o : GenerativeModel) :
  heap e !! __generative_model self = Some o ->
  shape1 (fst (draw o (hid e))) <= length programs ->
  ~ has_a_one (fst (draw o (hid e))) ->
  exists e',
    compose file_path velocity_mean velocity_std (self, e)
      = (Raise (ValueError "No objects to concatenate"), (self, e')) /\
    heap e' = heap e /\
    trace e' = trace e ++ [EvDraw (__generative_model self)].
Proof.
  intros Ho Hpl Hno.
  destruct (compose_generate_returns self velocity_mean velocity_std e o Ho)
    as (notes & e1 & Hrun); [right; exact Hpl | right; exact Hno |].
  destruct (compose_generate_blocks self velocity_mean velocity_std e e1 o
              notes Ho Hrun) as (blocks & Hnotes & _ & Hperm & _).
  destruct (compose_generate_trace self velocity_mean velocity_std e o Ho)
    as (Hheap & n & Htrace & Hn).
  rewrite Hrun in Hheap, Htrace, Hn. cbn in Hheap, Htrace, Hn.
  specialize (Hn _ eq_refl).
  rewrite (no_one_no_position _ Hno) in Hperm. cbn in Hperm.
  apply Permutation_nil_r, map_eq_nil in Hperm.
  rewrite Hperm in Hnotes. subst notes. cbn in Hn. subst n.
  exists e1. split; [|split].
  - rewrite compose_halves, Hrun. reflexivity.
  - exact Hheap.
  - exact Htrace.
Qed.

End Whole.

Section ShortProgramList.
Context `{F : Framework}.
Variables (self : AAEComposer) (velocity_mean velocity_std : option Q).

Local Abbreviation programs := (program_list_of (__noise_sampler self)).
Local Abbreviation loc := (velocity_loc self velocity_mean).
Local Abbreviation scale := (velocity_scale self velocity_std).

(** A block whose program is listed runs through, when a velocity can be
    sampled. *)
Lemma block_returns (arr : ndarray) (b k : nat) (st : locals) :
  k < length programs ->
  can_sample loc scale = true ->
  exists st', block self arr loc scale b k st = (Ok tt, st').
Proof.
  intros Hk Hcan.
  destruct (block self arr loc scale b k st) as [[[]|ex] st'] eqn:Hrun.
  - exists st'. reflexivity.
  - exfalso. apply block_raise_inv in Hrun.
    destruct Hrun as [(_ & Hlen)|(_ & Hc & _)]; [lia | congruence].
Qed.

(** A block whose program is not listed raises at once. *)
Lemma block_raises (arr : ndarray) (b k : nat) (st : locals) :
  length programs <= k ->
  block self arr loc scale b k st = (Raise IndexError, st).
Proof.
  intros Hk. unfold block. cbv zeta. unfold bind at 1. unfold lift, index.
  apply nth_error_None in Hk. rewrite Hk. reflexivity.
Qed.

Lemma listed_blocks_return (arr : ndarray) (b m : nat) :
  can_sample loc scale = true ->
  forall (k0 : nat) (st : locals),
    k0 + m <= length programs ->
    exists st',
      for_ (seq k0 m) (fun program_key =>
        block self arr loc scale b program_key) st = (Ok tt, st').
Proof.
  intros Hcan. induction m as [|m IH]; intros k0 st Hle.
  - exists st. reflexivity.
  - destruct (block_returns arr b k0 st) as (st1 & Hrun); [lia | exact Hcan |].
    destruct (IH (S k0) st1) as (st2 & Hrun2); [lia|].
    exists st2. etransitivity; [apply for_cons_ok; exact Hrun | exact Hrun2].
Qed.

(** X3.  When the drawn array has a batch and more program rows than the
    noise sampler lists programs, and a velocity can be sampled (the scale
    is not negative and neither parameter is NaN), the generative model
    being a live object, [compose] raises [IndexError] at the first program
    row that is not listed: [draw()] has been called and velocities sampled
    for the rows before it, nothing is saved, and the composer and the
    store are as before. *)
Theorem compose_with_unlisted_program_raises
    (file_path : string) (e : env) (o : GenerativeModel) :
  heap e !! __generative_model self = Some o ->
  0 < shape0 (fst (draw o (hid e))) ->
  length programs < shape1 (fst (draw o (hid e))) ->
  can_sample loc scale = true ->
  exists n e',
    compose file_path velocity_mean velocity_std (self, e)
      = (Raise IndexError, (self, e')) /\
    heap e' = heap e /\
    trace e' =
      trace e ++
        EvDraw (__generative_model self) :: repeat (EvNormal loc scale) n.
Proof.
  intros Ho Hb Hk Hcan.
  destruct (compose_generate_trace self velocity_mean velocity_std e o Ho)
    as (Hheap & n & Htrace & _).
  assert (Hraise : fst (compose_generate self velocity_mean velocity_std e)
                   = Raise IndexError).
  { rewrite (compose_generate_loops self velocity_mean velocity_std e o Ho).
    set (arr := fst (draw o (hid e))) in *.
    set (l0 := {| generated_list := []; l_start := 0;
                  l_end := __time_fraction self;
                  l_env := Env (heap e) (snd (draw o (hid e)))
                             (trace e ++ [EvDraw (__generative_model self)]) |}).
    destruct (listed_blocks_return arr 0 (length programs) Hcan 0 l0)
      as (st1 & Hpre); [lia|].
    assert (Hinner : for_ (range (shape1 arr)) (fun program_key =>
                       block self arr loc scale 0 program_key) l0
                     = (Raise IndexError, st1)).
    { unfold range.
      replace (shape1 arr)
        with (length programs + S (shape1 arr - S (length programs))) by lia.
      rewrite seq_app. rewrite (for_app_ok _ _ _ _ _ Hpre).
      cbn [seq]. apply for_cons_raise. apply block_raises. lia. }
    assert (Houter : for_ (range (shape0 arr)) (fun batch =>
                       for_ (range (shape1 arr)) (fun program_key =>
                         block self arr loc scale batch program_key)) l0
                     = (Raise IndexError, st1)).
    { unfold range at 1. destruct (shape0 arr) as [|s0]; [lia|].
      cbn [seq]. apply for_cons_raise. exact Hinner. }
    rewrite Houter. reflexivity. }
  destruct (compose_generate self velocity_mean velocity_std e)
    as [r e1] eqn:Hrun.
  cbn in Hheap, Htrace, Hraise. subst r.
  exists n, e1. split; [|split].
  - rewrite compose_halves, Hrun. reflexivity.
  - exact Hheap.
  - exact Htrace.
Qed.

End ShortProgramList.

Section Unsampled.
Context `{F : Framework}.
Variables (self : AAEComposer) (velocity_mean velocity_std : option Q).

Local Abbreviation programs := (program_list_of (__noise_sampler self)).
Local Abbreviation loc := (velocity_loc self velocity_mean).
Local Abbreviation scale := (velocity_scale self velocity_std).

Lemma sampled_refl (st : locals) : sampled loc scale st st.
Proof. left. reflexivity. Qed.

Lemma sampled_trans (a b c : locals) :
  sampled loc scale a b -> sampled loc scale b c -> sampled loc scale a c.
Proof.
  intros [H1|H1] [H2|H2]; try (right; assumption).
  left. congruence.
Qed.

Lemma block_sampled (arr : ndarray) (b k : nat) (st st' : locals) :
  block self arr loc scale b k st = (Ok tt, st') ->
  sampled loc scale st st'.
Proof.
  unfold block. cbv zeta. intros H.
  apply bind_ok_inv in H. destruct H as (prog & st0 & Hidx & H).
  unfold lift in Hidx. injection Hidx as _ <-.
  apply bind_ok_inv in H. destruct H as ([] & st1 & Hsteps & Hadv).
  unfold advance, modify in Hadv. injection Hadv as <-.
  eapply sampled_trans; [|left; reflexivity].
  revert Hsteps.
  apply (for_returns_preserves (sampled loc scale) sampled_refl sampled_trans).
  intros s st2 st3.
  apply (for_returns_preserves (sampled loc scale) sampled_refl sampled_trans).
  intros r st4 st5 Hrow. right.
  apply bind_ok_inv in Hrow. destruct Hrow as (v & st6 & Hc & _).
  pose proof (call_normal_outcome loc scale st4) as Ho. cbv zeta in Ho.
  rewrite Hc in Ho. cbn in Ho. destruct Ho as (Ho & _). exact Ho.
Qed.

(** A run that returns a note has sampled its velocity. *)
Lemma compose_generate_sampled (e e' : env) (o : GenerativeModel)
    (notes : list note) :
  heap e !! __generative_model self = Some o ->
  compose_generate self velocity_mean velocity_std e = (Ok notes, e') ->
  notes <> [] ->
  can_sample loc scale = true.
Proof.
  intros Ho Hrun Hne.
  rewrite (compose_generate_loops self velocity_mean velocity_std e o Ho)
    in Hrun.
  destruct (for_ _ _ _) as [[[]|ex] st] eqn:Hfor; [|discriminate].
  injection Hrun as <- _.
  assert (Hs : sampled loc scale
                 {| generated_list := []; l_start := 0;
                    l_end := __time_fraction self;
                    l_env := Env (heap e) (snd (draw o (hid e)))
                               (trace e ++ [EvDraw (__generative_model self)]) |}
                 st).
  { revert Hfor.
    apply (for_returns_preserves (sampled loc scale) sampled_refl sampled_trans).
    intros b st1 st2.
    apply (for_returns_preserves (sampled loc scale) sampled_refl sampled_trans).
    intros k st3 st4. apply block_sampled. }
  destruct Hs as [Hs|Hs]; [|exact Hs].
  cbn in Hs. contradiction.
Qed.

(** X15.  When a cell of the drawn array is equal to one, the noise
    sampler lists a program for every program row and a velocity cannot be
    sampled (the scale is negative or a parameter is NaN, as the default
    standard deviation is over a MIDI file of one note), the generative
    model being a live object, [compose] raises [ValueError] where it
    samples a velocity: [draw()] has been called, nothing is saved, and the
    composer and the store are as before. *)
Theorem compose_with_unsampled_velocity_raises
    (file_path : string) (e : env) (o : GenerativeModel) :
  heap e !! __generative_model self = Some o ->
  shape1 (fst (draw o (hid e))) <= length programs ->
  has_a_one (fst (draw o (hid e))) ->
  can_sample loc scale = false ->
  exists n e',
    compose file_path velocity_mean velocity_std (self, e)
      = (Raise (sampling_error scale), (self, e')) /\
    heap e' = heap e /\
    trace e' =
      trace e ++
        EvDraw (__generative_model self) :: repeat (EvNormal loc scale) n.
Proof.
  intros Ho Hpl Hone Hcan.
  destruct (compose_generate_trace self velocity_mean velocity_std e o Ho)
    as (Hheap & n & Htrace & _).
  destruct (compose_generate self velocity_mean velocity_std e)
    as [[notes|ex] e1] eqn:Hrun; cbn [snd] in Hheap, Htrace.
  - exfalso.
    assert (Hne : notes <> []).
    { destruct (compose_generate_blocks self velocity_mean velocity_std e e1 o
                  notes Ho Hrun) as (blocks & -> & _ & Hperm & _).
      intros Hnil. apply a_one_a_position in Hone.
      rewrite <- (length_map (expected_program_and_pitch self)),
        <- (Permutation_length Hperm), Hnil in Hone.
      cbn in Hone. lia. }
    pose proof (compose_generate_sampled e e1 o notes Ho Hrun Hne) as Hs.
    congruence.
  - destruct (compose_generate_raises self velocity_mean velocity_std e e1 o
                ex Ho Hrun) as [(_ & _ & Hk)|(-> & _ & _)]; [lia|].
    exists n, e1. split; [|split].
    + rewrite compose_halves, Hrun. reflexivity.
    + exact Hheap.
    + exact Htrace.
Qed.

End Unsampled.

(* ===================================================================== *)
(** ** More on the saved frame *)
(* ===================================================================== *)

Section PartitionByPitch.

Lemma filter_pitch_cons (x : note) (l : list note) (p : Z) :
  List.filter (fun n => (pitch n =? p)%Z) (x :: l) =
    if (pitch x =? p)%Z then x :: List.filter (fun n => (pitch n =? p)%Z) l
    else List.filter (fun n => (pitch n =? p)%Z) l.
Proof. reflexivity. Qed.

Lemma flat_map_pitch_miss (x : note) (l : list note) (ps : list Z) :
  ~ In (pitch x) ps ->
  flat_map (fun p => List.filter (fun n => (pitch n =? p)%Z) (x :: l)) ps
  = flat_map (fun p => List.filter (fun n => (pitch n =? p)%Z) l) ps.
Proof.
  induction ps as [|p ps IH]; intros Hn; cbn [flat_map].
  - reflexivity.
  - rewrite filter_pitch_cons.
    destruct (Z.eqb_spec (pitch x) p) as [Heq|Hne].
    + exfalso. apply Hn. left. congruence.
    + rewrite IH; [reflexivity|]. intros H. apply Hn. right. exact H.
Qed.

Lemma flat_map_pitch_hit (x : note) (l : list note) (ps : list Z) :
  List.NoDup ps -> In (pitch x) ps ->
  Permutation
    (flat_map (fun p => List.filter (fun n => (pitch n =? p)%Z) (x :: l)) ps)
    (x :: flat_map (fun p => List.filter (fun n => (pitch n =? p)%Z) l) ps).
Proof.
  induction 1 as [|p ps Hp Hnd IH]; intros Hin; cbn [flat_map].
  - destruct Hin.
  - rewrite filter_pitch_cons.
    destruct (Z.eqb_spec (pitch x) p) as [Heq|Hne].
    + subst p. rewrite flat_map_pitch_miss by assumption. reflexivity.
    + destruct Hin as [Heq|Hin]; [congruence|].
      rewrite (IH Hin). symmetry. apply Permutation_middle.
Qed.

(** The pitch groups share out the notes: each note is in one group. *)
Lemma groups_share_out (df : list note) (ps : list Z) :
  List.NoDup ps -> (forall n, In n df -> In (pitch n) ps) ->
  Permutation
    (flat_map (fun p => List.filter (fun n => (pitch n =? p)%Z) df) ps) df.
Proof.
  intros Hnd. induction df as [|x df IH]; intros Hin.
  - clear. induction ps as [|p ps IHp]; cbn; [reflexivity | exact IHp].
  - rewrite flat_map_pitch_hit.
    + constructor. apply IH. intros n Hn. apply Hin. right. exact Hn.
    + exact Hnd.
    + apply Hin. left. reflexivity.
Qed.

End PartitionByPitch.

Lemma sublist_In {A : Type} (l1 l2 : list A) (x : A) :
  sublist l1 l2 -> In x l1 -> In x l2.
Proof.
  induction 1 as [|y l1 l2 Hs IH|y l1 l2 Hs IH]; cbn.
  - intros [].
  - intros [->|H]; [left; reflexivity | right; apply IH, H].
  - intros H. right. apply IH, H.
Qed.

Lemma in_add_next (srt : list note) (row : frame_row) :
  In row (add_next srt) ->
  In (r_note row) srt /\
  ((next_start row = None /\ next_end row = None) \/
   exists n', In n' srt /\
     next_start row = Some (start n') /\ next_end row = Some (end_ n')).
Proof.
  induction srt as [|x srt IH]; cbn; [intros []|].
  intros [<-|Hin]; cbn.
  - split; [left; reflexivity|].
    destruct srt as [|y srt]; cbn; [left; split; reflexivity|].
    right. exists y. split; [right; left; reflexivity | split; reflexivity].
  - destruct (IH Hin) as (Hn & Hnext). split; [right; exact Hn|].
    destruct Hnext as [Hnone|(n' & Hn' & Hs & He)]; [left; exact Hnone|].
    right. exists n'. split; [right; exact Hn' | split; assumption].
Qed.

(** Where a row of a pitch group comes from, and where its end comes from. *)
Lemma pitch_group_origin (df : list note) (p : Z) (r : frame_row) :
  In r (pitch_group df p) ->
  exists n, In n df /\ pitch n = p /\ comes_from r n /\
    (end_ (r_note r) = end_ n \/
     exists n', In n' df /\ pitch n' = p /\
       (end_ n == start n')%Q /\ end_ (r_note r) = end_ n').
Proof.
  unfold pitch_group. intros Hin.
  apply (sublist_In _ _ _ (dedup_by_sublist same_end _)) in Hin.
  apply in_map_iff in Hin. destruct Hin as (row & <- & Hrow).
  apply in_add_next in Hrow. destruct Hrow as (Hn & Hnext).
  assert (Hsrt : forall n, In n (sort_by start_end_leb
                   (List.filter (fun n => (pitch n =? p)%Z) df)) ->
                 In n df /\ pitch n = p).
  { intros n Hin.
    eapply Permutation_in in Hin; [|apply sort_by_Permutation].
    apply filter_In in Hin. destruct Hin as [Hin Hp].
    apply Z.eqb_eq in Hp. split; assumption. }
  destruct (Hsrt _ Hn) as [Hdf Hp].
  exists (r_note row). split; [exact Hdf|]. split; [exact Hp|].
  unfold extend_end.
  destruct Hnext as [[Hs He]|(n' & Hn' & Hs & He)]; rewrite Hs, ?He.
  - split; [repeat split|]. left. reflexivity.
  - destruct (Qeq_bool (end_ (r_note row)) (start n')) eqn:Hq.
    + cbn. split; [repeat split|]. right.
      destruct (Hsrt _ Hn') as [Hdf' Hp'].
      exists n'. apply Qeq_bool_iff in Hq. repeat split; assumption.
    + split; [repeat split|]. left. reflexivity.
Qed.

Lemma length_sort_by {A : Type} (leb : A -> A -> bool) (l : list A) :
  length (sort_by leb l) = length l.
Proof. apply Permutation_length, sort_by_Permutation. Qed.

Lemma length_pitch_group (df : list note) (p : Z) :
  length (pitch_group df p)
    <= length (List.filter (fun n => (pitch n =? p)%Z) df).
Proof.
  unfold pitch_group.
  etransitivity; [apply sublist_length, dedup_by_sublist|].
  rewrite length_map, length_add_next, length_sort_by. reflexivity.
Qed.

Lemma length_groups (df : list note) (ps : list Z) :
  length (concat (map (pitch_group df) ps))
    <= length (flat_map (fun p => List.filter (fun n => (pitch n =? p)%Z) df) ps).
Proof.
  induction ps as [|p ps IH]; cbn; [reflexivity|].
  rewrite !length_app. pose proof (length_pitch_group df p). lia.
Qed.

Lemma first_group_has_a_row (n : note) (l : list note) :
  0 < length (pitch_group (n :: l) (pitch n)).
Proof.
  unfold pitch_group. cbn [List.filter]. rewrite Z.eqb_refl.
  destruct (sort_by start_end_leb
              (n :: List.filter (fun n0 => (pitch n0 =? pitch n)%Z) l))
    as [|x srt] eqn:Hs.
  - apply (f_equal (@length _)) in Hs. rewrite length_sort_by in Hs.
    cbn in Hs. lia.
  - cbn. lia.
Qed.

Section SavedRows.
Context `{F : Framework}.

(** X5.  [save] is never handed a note that was not generated: each row of
    the saved frame has the program, the start, the pitch and the velocity
    of a generated note, and there are at least one row and at most as many
    rows as notes. *)
Theorem saved_rows_come_from_notes
    (file_path : string) (generated_midi_df : list note) (e : env) :
  0 < length generated_midi_df ->
  exists note_df,
    compose_save file_path generated_midi_df e
      = (Ok tt, Env (heap e) (hid e) (trace e ++ [EvSave file_path note_df])) /\
    (forall r, In r note_df ->
       exists n, In n generated_midi_df /\ comes_from r n) /\
    0 < length note_df <= length generated_midi_df.
Proof.
  intros Hlen. eexists. split; [apply compose_save_nonempty; exact Hlen|].
  split.
  - intros r Hr.
    eapply Permutation_in in Hr; [|apply sort_by_Permutation].
    apply in_concat in Hr. destruct Hr as (g & Hg & Hr).
    apply in_map_iff in Hg. destruct Hg as (p & <- & _).
    apply pitch_group_origin in Hr. destruct Hr as (n & Hn & _ & Hc & _).
    exists n. split; assumption.
  - rewrite length_sort_by. split.
    + destruct generated_midi_df as [|n l]; [cbn in Hlen; lia|].
      cbn [map drop_duplicates_pitch dedup_by concat].
      rewrite length_app. pose proof (first_group_has_a_row n l). lia.
    + etransitivity; [apply length_groups|].
      rewrite (Permutation_length
                 (groups_share_out generated_midi_df _
                    (NoDup_drop_duplicates_pitch _)
                    (fun n Hn => proj2 (in_drop_duplicates_pitch _ _)
                                   (in_map pitch _ _ Hn)))).
      reflexivity.
Qed.

(** X6.  When no generated note ends before it starts, merging never
    shortens a note: each saved row ends no earlier than the generated note
    it comes from. *)
Theorem saved_rows_end_no_earlier
    (file_path : string) (generated_midi_df : list note) (e : env) :
  0 < length generated_midi_df ->
  Forall (fun n => (start n <= end_ n)%Q) generated_midi_df ->
  exists note_df,
    compose_save file_path generated_midi_df e
      = (Ok tt, Env (heap e) (hid e) (trace e ++ [EvSave file_path note_df])) /\
    forall r, In r note_df ->
      exists n, In n generated_midi_df /\ comes_from r n /\
        (end_ n <= end_ (r_note r))%Q.
Proof.
  intros Hlen Hwf. rewrite List.Forall_forall in Hwf.
  eexists. split; [apply compose_save_nonempty; exact Hlen|].
  intros r Hr.
  eapply Permutation_in in Hr; [|apply sort_by_Permutation].
  apply in_concat in Hr. destruct Hr as (g & Hg & Hr).
  apply in_map_iff in Hg. destruct Hg as (p & <- & _).
  apply pitch_group_origin in Hr.
  destruct Hr as (n & Hn & _ & Hc & [He|(n' & Hn' & _ & Hq & He)]).
  - exists n. repeat split; try apply Hc; [exact Hn|]. rewrite He. lra.
  - exists n. repeat split; try apply Hc; [exact Hn|].
    rewrite He. pose proof (Hwf n' Hn'). lra.
Qed.

End SavedRows.

Section Pairs.
Context {A : Type} (R : A -> A -> Prop).
Hypothesis R_sym : forall a b, R a b -> R b a.

Lemma ForallOrdPairs_app (l1 l2 : list A) :
  ForallOrdPairs R l1 -> ForallOrdPairs R l2 ->
  (forall a b, In a l1 -> In b l2 -> R a b) ->
  ForallOrdPairs R (l1 ++ l2).
Proof.
  induction 1 as [|x l1 Hx Hl1 IH]; intros Hl2 Hcross; cbn.
  - exact Hl2.
  - constructor.
    + apply Forall_app. split; [exact Hx|].
      apply List.Forall_forall. intros b Hb. apply Hcross; [left; reflexivity | exact Hb].
    + apply IH; [exact Hl2|]. intros a b Ha Hb. apply Hcross; [right; exact Ha | exact Hb].
Qed.

Lemma insert_by_pairs (leb : A -> A -> bool) (x : A) (l : list A) :
  Forall (R x) l -> ForallOrdPairs R l ->
  ForallOrdPairs R (insert_by leb x l).
Proof.
  intros Hx Hl. revert Hx.
  induction Hl as [|y l Hy Hl IH]; intros Hx; cbn.
  - constructor; constructor.
  - destruct (leb x y).
    + constructor; [exact Hx | constructor; assumption].
    + inversion Hx as [|? ? Hxy Hxl]; subst.
      constructor; [|apply IH; exact Hxl].
      eapply Permutation_Forall; [symmetry; apply insert_by_Permutation|].
      constructor; [apply R_sym; exact Hxy | exact Hy].
Qed.

(** Sorting keeps what holds of every two rows, whatever their order. *)
Lemma sort_by_pairs (leb : A -> A -> bool) (l : list A) :
  ForallOrdPairs R l -> ForallOrdPairs R (sort_by leb l).
Proof.
  induction 1 as [|x l Hx Hl IH]; cbn.
  - constructor.
  - apply insert_by_pairs; [|exact IH].
    eapply Permutation_Forall; [symmetry; apply sort_by_Permutation | exact Hx].
Qed.

End Pairs.

Lemma apart_sym (a b : frame_row) : apart a b -> apart b a.
Proof.
  unfold apart, ends_differ. intros H Hp Hq. apply H; [congruence|].
  symmetry. exact Hq.
Qed.

Lemma pitch_group_pitch (df : list note) (p : Z) (r : frame_row) :
  In r (pitch_group df p) -> pitch (r_note r) = p.
Proof.
  intros Hr. apply pitch_group_origin in Hr.
  destruct Hr as (n & _ & Hp & (_ & _ & Hpitch & _) & _). congruence.
Qed.

Lemma pitch_group_apart (df : list note) (p : Z) :
  ForallOrdPairs apart (pitch_group df p).
Proof.
  destruct (dedup_by_same_end_kept_first
              (map extend_end
                 (add_next
                    (sort_by start_end_leb
                       (List.filter (fun n => (pitch n =? p)%Z) df)))))
    as (_ & Hpairs & _).
  unfold pitch_group.
  induction Hpairs as [|x l Hx Hl IH]; constructor; [|exact IH].
  eapply List.Forall_impl; [|exact Hx]. intros y Hy _. exact Hy.
Qed.

Lemma groups_apart (df : list note) (ps : list Z) :
  List.NoDup ps -> ForallOrdPairs apart (concat (map (pitch_group df) ps)).
Proof.
  induction 1 as [|p ps Hp Hnd IH]; cbn.
  - constructor.
  - apply ForallOrdPairs_app; [apply pitch_group_apart | exact IH|].
    intros a b Ha Hb Hpitch. exfalso.
    apply in_concat in Hb. destruct Hb as (g & Hg & Hb).
    apply in_map_iff in Hg. destruct Hg as (q & <- & Hq).
    apply pitch_group_pitch in Ha, Hb. apply Hp. congruence.
Qed.

Section Apart.
Context `{F : Framework}.

(** X7.  In the saved frame no two rows of the same pitch end at the same
    time. *)
Theorem saved_rows_of_a_pitch_end_apart
    (file_path : string) (generated_midi_df : list note) (e : env) :
  0 < length generated_midi_df ->
  exists note_df,
    compose_save file_path generated_midi_df e
      = (Ok tt, Env (heap e) (hid e) (trace e ++ [EvSave file_path note_df])) /\
    ForallOrdPairs apart note_df.
Proof.
  intros Hlen. eexists. split; [apply compose_save_nonempty; exact Hlen|].
  apply (sort_by_pairs apart apart_sym).
  apply groups_apart, NoDup_drop_duplicates_pitch.
Qed.

End Apart.

Lemma filter_pitch_none (df : list note) (p : Z) :
  ~ In p (map pitch df) -> List.filter (fun n => (pitch n =? p)%Z) df = [].
Proof.
  induction df as [|x df IH]; cbn; [reflexivity|].
  intros Hn. destruct (Z.eqb_spec (pitch x) p) as [Heq|Hne].
  - exfalso. apply Hn. left. exact Heq.
  - apply IH. intros H. apply Hn. right. exact H.
Qed.

Lemma filter_pitch_at_most_one (df : list note) (p : Z) :
  List.NoDup (map pitch df) ->
  length (List.filter (fun n => (pitch n =? p)%Z) df) <= 1.
Proof.
  induction df as [|x df IH]; cbn; [lia|].
  intros Hnd. inversion Hnd as [|? ? Hx Hnd']; subst.
  destruct (Z.eqb_spec (pitch x) p) as [Heq|Hne].
  - subst p. rewrite filter_pitch_none by exact Hx. cbn. lia.
  - apply IH. exact Hnd'.
Qed.

(** A group of one note is that note, untouched. *)
Lemma pitch_group_alone (df : list note) (p : Z) :
  length (List.filter (fun n => (pitch n =? p)%Z) df) <= 1 ->
  pitch_group df p = map alone (List.filter (fun n => (pitch n =? p)%Z) df).
Proof.
  unfold pitch_group.
  destruct (List.filter (fun n => (pitch n =? p)%Z) df) as [|n [|n' l]];
    cbn; intros H; [reflexivity | reflexivity | lia].
Qed.

Section Alone.
Context `{F : Framework}.

(** X8.  When the generated notes all have different pitches, nothing is
    merged and nothing is dropped: the saved frame is the generated notes,
    each as it was, in (start, end) order. *)
Theorem notes_of_different_pitches_are_saved_as_they_are
    (file_path : string) (generated_midi_df : list note) (e : env) :
  0 < length generated_midi_df ->
  List.NoDup (map pitch generated_midi_df) ->
  exists note_df,
    compose_save file_path generated_midi_df e
      = (Ok tt, Env (heap e) (hid e) (trace e ++ [EvSave file_path note_df])) /\
    Permutation note_df (map alone generated_midi_df) /\
    StronglySorted row_le note_df.
Proof.
  intros Hlen Hnd. eexists.
  split; [apply compose_save_nonempty; exact Hlen|]. split.
  - rewrite sort_by_Permutation.
    assert (Hgroups :
      forall ps,
        concat (map (pitch_group generated_midi_df) ps)
        = map alone
            (flat_map (fun p => List.filter (fun n => (pitch n =? p)%Z)
                                  generated_midi_df) ps)).
    { induction ps as [|p ps IH]; cbn; [reflexivity|].
      rewrite map_app, IH, pitch_group_alone; [reflexivity|].
      apply filter_pitch_at_most_one. exact Hnd. }
    rewrite Hgroups. apply Permutation_map.
    apply groups_share_out; [apply NoDup_drop_duplicates_pitch|].
    intros n Hn. apply in_drop_duplicates_pitch, in_map. exact Hn.
  - eapply StronglySorted_weaken; [|apply sort_by_sorted].
    + intros a b. apply start_end_leb_iff.
    + intros a b. apply start_end_leb_total.
    + intros a b c. apply start_end_leb_trans.
Qed.

(** X9.  Two notes of one pitch, the second starting when the first ends,
    are saved as one note from the start of the first to the end of the
    second, in whichever order they were generated. *)
Theorem adjacent_notes_are_saved_as_one
    (file_path : string) (n1 n2 : note) (e : env) :
  pitch n1 = pitch n2 ->
  (start n1 < start n2)%Q ->
  (end_ n1 == start n2)%Q ->
  let merged :=
    {| r_note := set_end (end_ n2) n1;
       next_start := Some (start n2);
       next_end := Some (end_ n2) |} in
  compose_save file_path [n1; n2] e
    = (Ok tt, Env (heap e) (hid e) (trace e ++ [EvSave file_path [merged]])) /\
  compose_save file_path [n2; n1] e
    = (Ok tt, Env (heap e) (hid e) (trace e ++ [EvSave file_path [merged]])).
Proof.
  intros Hp Hlt Heq merged.
  assert (H12 : start_end_leb n1 n2 = true).
  { apply start_end_leb_iff. left. exact Hlt. }
  assert (H21 : start_end_leb n2 n1 = false).
  { destruct (start_end_leb n2 n1) eqn:H; [|reflexivity].
    apply start_end_leb_iff in H. destruct H as [H|[H _]]; lra. }
  assert (Hext : Qeq_bool (end_ n1) (start n2) = true)
    by (apply Qeq_bool_iff; exact Heq).
  assert (Hsame : Qeq_bool (end_ n2) (end_ n2) = true)
    by (apply Qeq_bool_iff; reflexivity).
  split; rewrite compose_save_nonempty by (cbn; lia); repeat f_equal;
    unfold drop_duplicates_pitch, pitch_group; cbn;
    rewrite <- ?Hp, ?Z.eqb_refl; cbn; rewrite ?Z.eqb_refl; cbn;
    rewrite ?H12, ?H21; cbn; unfold extend_end; cbn; rewrite Hext; cbn;
    unfold same_end; cbn; rewrite Hsame; cbn; reflexivity.
Qed.

End Alone.

(* ===================================================================== *)
(** ** More on [__init__] and [learn] *)
(* ===================================================================== *)

Section InitStore.
Context `{F : Framework}.

Variables (midi_path_list : list string) (batch_size seq_len : Z)
  (time_fraction : Q) (min_pitch max_pitch : Z) (learning_rate : Q)
  (hidden_dim : option Z) (true_sampler : option TrueSampler)
  (discriminative_model : option DiscriminativeModel)
  (gans_value_function : option GANsValueFunction).

Local Abbreviation bar_args :=
  (SamplerArgs (map extract midi_path_list) batch_size seq_len time_fraction
     min_pitch max_pitch).

(** X10.  With no generative model and no noise sampler passed, [__init__]
    returns; the generative model it builds is a new object, at an address
    that held nothing before, with the default noise sampler as its
    [noise_sampler] and the sampler's channel count as its channel; every
    object that was in the store is left as it was. *)
Theorem init_builds_a_new_generative_model (e : env) :
  exists self e' g,
    __init__ midi_path_list batch_size seq_len time_fraction min_pitch
      max_pitch learning_rate hidden_dim true_sampler None None
      discriminative_model gans_value_function e = (Ok self, e') /\
    heap e !! __generative_model self = None /\
    heap e' !! __generative_model self =
      Some {| body := ConvolutionalAutoEncoder g;
              AAE.noise_sampler := Some (BarNoiseSampler bar_args) |} /\
    g_channel g = bar_channel bar_args /\
    g_batch_size g = batch_size /\
    (forall a, a <> __generative_model self -> heap e' !! a = heap e !! a) /\
    hid e' = hid e /\ trace e' = trace e.
Proof.
  unfold __init__. cbn. eexists _, _, _. split; [reflexivity|]. cbn.
  split; [|split; [|split; [|split; [|split; [|split]]]]].
  - apply not_elem_of_dom, is_fresh.
  - rewrite lookup_alter_eq, lookup_insert_eq. reflexivity.
  - reflexivity.
  - reflexivity.
  - intros a Ha. rewrite lookup_alter_ne, lookup_insert_ne by congruence.
    reflexivity.
  - reflexivity.
  - reflexivity.
Qed.

(** X11.  A noise sampler of the caller goes with no MIDI file only: when
    [__init__] returns for it, [midi_path_list] was empty, the channel count
    is 0, and a default discriminator gets hidden_dim 0 unless [hidden_dim]
    was passed. *)
Theorem init_with_a_given_noise_sampler_has_no_channel
    (ns : NoiseSampler) (generative_model : option ref)
    (e e' : env) (self : AAEComposer) :
  __init__ midi_path_list batch_size seq_len time_fraction min_pitch
    max_pitch learning_rate hidden_dim true_sampler (Some ns) generative_model
    discriminative_model gans_value_function e = (Ok self, e') ->
  midi_path_list = [] /\
  __noise_sampler self = ns /\
  (generative_model = None ->
   exists g, body <$> heap e' !! __generative_model self
             = Some (ConvolutionalAutoEncoder g) /\ g_channel g = 0%Z) /\
  (discriminative_model = None ->
   exists d, __discriminative_model self = SeqCNNModel d /\
     map cg_channel (d_layerable_cnn_list d) = [0%Z] /\
     og_hidden_dim (cnn_output_graph d) =
       match hidden_dim with
       | Some h => h
       | None => 0%Z
       end).
Proof.
  intros Hinit.
  destruct midi_path_list as [|p ps] eqn:Hm.
  - split; [reflexivity|]. unfold __init__ in Hinit. cbn in Hinit.
    destruct generative_model as [g|]; cbn in Hinit;
      injection Hinit as <- <-; cbn.
    + split; [reflexivity|]. split; [discriminate|].
      intros ->. eexists. repeat split; destruct hidden_dim; reflexivity.
    + split; [reflexivity|]. split.
      * intros _. eexists.
        rewrite lookup_alter_eq, lookup_insert_eq. cbn. split; reflexivity.
      * intros ->. eexists. repeat split; destruct hidden_dim; reflexivity.
  - exfalso. rewrite <- Hm in Hinit.
    rewrite (init_channel_raises midi_path_list batch_size seq_len
               time_fraction min_pitch max_pitch learning_rate hidden_dim
               true_sampler (Some ns) generative_model discriminative_model
               gans_value_function e) in Hinit; [discriminate | discriminate|].
    rewrite Hm. discriminate.
Qed.

End InitStore.

Section LearnThen.
Context `{F : Framework}.

(** X12.  Two calls of [learn] in a row train twice, the second time the
    models the first call returned; the composer ends up with the models of
    the second call. *)
Theorem learn_twice_trains_the_trained_models
    (iter_n1 k_step1 iter_n2 k_step2 : Z) (self : AAEComposer) (e : env) :
  let call1 :=
    train (__GAN self) (__true_sampler self) (__generative_model self)
      (__discriminative_model self) iter_n1 k_step1 (heap e, hid e) in
  let call2 :=
    train (__GAN self) (__true_sampler self) (fst (fst call1))
      (snd (fst call1)) iter_n2 k_step2 (snd call1) in
  exists self' e',
    (learn iter_n1 k_step1 ;;; learn iter_n2 k_step2) (self, e)
      = (Ok tt, (self', e')) /\
    __generative_model self' = fst (fst call2) /\
    __discriminative_model self' = snd (fst call2) /\
    heap e' = fst (snd call2) /\
    hid e' = snd (snd call2) /\
    trace e' =
      trace e ++
        [EvTrain (__GAN self) (__true_sampler self) (__generative_model self)
           (__discriminative_model self) iter_n1 k_step1;
         EvTrain (__GAN self) (__true_sampler self) (fst (fst call1))
           (snd (fst call1)) iter_n2 k_step2].
Proof.
  intros call1 call2.
  unfold learn, self_, on_env, call_train, bind, modify; cbn.
  fold call1. destruct call1 as [[g1 d1] [h1 hd1]] eqn:H1; cbn in *.
  fold call2. destruct call2 as [[g2 d2] [h2 hd2]] eqn:H2; cbn.
  eexists _, _. split; [reflexivity|]. cbn.
  rewrite <- app_assoc. repeat split; reflexivity.
Qed.

Lemma compose_save_draws (file_path : string) (df : list note) (e : env) :
  draws (trace (snd (compose_save file_path df e))) = draws (trace e).
Proof.
  destruct df as [|n df]; [reflexivity|].
  rewrite compose_save_nonempty by (cbn; lia). cbn.
  rewrite draws_app. cbn. apply app_nil_r.
Qed.

(** X13.  After [learn], [compose] draws from the generative model that
    [train] returned, once, whether it then returns or raises, and the
    property [generative_model] returns that model (the model being a live
    object after training). *)
Theorem compose_after_learn_draws_from_the_trained_model
    (iter_n k_step : Z) (file_path : string)
    (velocity_mean velocity_std : option Q)
    (self : AAEComposer) (e : env) (o : GenerativeModel) :
  let call :=
    train (__GAN self) (__true_sampler self) (__generative_model self)
      (__discriminative_model self) iter_n k_step (heap e, hid e) in
  fst (snd call) !! fst (fst call) = Some o ->
  exists self' e1,
    learn iter_n k_step (self, e) = (Ok tt, (self', e1)) /\
    read generative_model (self', e1) = (Ok (fst (fst call)), (self', e1)) /\
    draws (trace (snd (snd (compose file_path velocity_mean velocity_std
                              (self', e1)))))
      = draws (trace e) ++ [EvDraw (fst (fst call))].
Proof.
  intros call Ho.
  set (self' := set_models (fst (fst call)) (snd (fst call)) self).
  set (e1 := Env (fst (snd call)) (snd (snd call))
               (trace e ++
                  [EvTrain (__GAN self) (__true_sampler self)
                     (__generative_model self) (__discriminative_model self)
                     iter_n k_step])).
  assert (Hlearn : learn iter_n k_step (self, e) = (Ok tt, (self', e1))).
  { unfold learn, self_, on_env, call_train, bind, modify; cbn.
    fold call. subst self' e1. destruct call as [[g d] [h hd]]. reflexivity. }
  exists self', e1.
  split; [exact Hlearn|]. split; [reflexivity|].
  pose proof (compose_generate_draws self' velocity_mean velocity_std e1 o Ho)
    as Hd.
  assert (He1 : draws (trace e1) = draws (trace e)).
  { subst e1. cbn. rewrite draws_app. cbn. apply app_nil_r. }
  rewrite He1 in Hd. rewrite compose_halves.
  destruct (compose_generate self' velocity_mean velocity_std e1)
    as [[notes|ex] e2]; cbn [snd] in Hd.
  - pose proof (compose_save_draws file_path notes e2) as Hs.
    destruct (compose_save file_path notes e2) as [r e3]. cbn in Hs |- *.
    rewrite Hs. exact Hd.
  - exact Hd.
Qed.

End LearnThen.

(* ===================================================================== *)
(** ** The further theorems on the sample frameworks *)
(* ===================================================================== *)

Section MoreOnTheSample.
#[local] Existing Instance Sample.framework.

Lemma compose_generate_asks_for_velocities_only_witness :
  exists n,
    trace (snd (compose_generate Sample.composer None (Some 2%Q)
                  Sample.env_with_bars))
    = EvDraw 7%positive
      :: repeat (EvNormal (MeanOfMeans [[100%Z]]) (GivenParam 2)) n.
Proof.
  destruct (compose_generate_asks_for_velocities_only Sample.composer None
              (Some 2%Q) Sample.env_with_bars (Sample.given 2))
    as (_ & _ & n & Htrace & _).
  - reflexivity.
  - exists n. exact Htrace.
Defined.

Lemma bars_has_a_one : has_a_one Sample.bars.
Proof.
  exists 0, 0, 0, 0. cbn. repeat split; try lia.
Qed.

Lemma compose_draws_samples_and_saves_once_witness :
  exists n note_df e',
    compose "out.mid" (Some 64%Q) (Some 2%Q)
      (Sample.composer, Sample.env_of_composer)
      = (Ok tt, (Sample.composer, e')) /\
    saves (trace e') = [EvSave "out.mid" note_df] /\
    0 < n.
Proof.
  destruct (compose_draws_samples_and_saves_once Sample.composer
              (Some 64%Q) (Some 2%Q) "out.mid" Sample.env_of_composer
              (Sample.given_with 2 (__noise_sampler Sample.composer)))
    as (n & note_df & e' & Hrun & _ & Hn & Htrace & _).
  - reflexivity.
  - cbn. lia.
  - reflexivity.
  - exact bars_has_a_one.
  - exists n, note_df, e'. split; [exact Hrun|]. split; [|exact Hn].
    rewrite Htrace. cbn. unfold saves. rewrite List.filter_app. cbn.
    fold (saves (repeat (EvNormal (velocity_loc Sample.composer (Some 64%Q))
                           (velocity_scale Sample.composer (Some 2%Q))) n)).
    rewrite saves_of_samples. reflexivity.
Defined.

(** The short composer is a composer [__init__] builds. *)
Example init_builds_the_short_composer :
  __init__ [] 10 2 (1 # 2) 24 27 (1 # 100000) None None
    (Some (GivenNoiseSampler 1 [0%Z])) (Some 7%positive)
    (Some (GivenDiscriminativeModel 1)) None Sample.env_with_bars
  = (Ok Sample.short_composer, Sample.env_of_short_composer).
Proof. vm_compute. reflexivity. Qed.

Lemma compose_with_unlisted_program_raises_witness :
  exists e',
    compose "out.mid" (Some 64%Q) (Some 2%Q)
      (Sample.short_composer, Sample.env_of_short_composer)
      = (Raise IndexError, (Sample.short_composer, e')).
Proof.
  destruct (compose_with_unlisted_program_raises Sample.short_composer
              (Some 64%Q) (Some 2%Q) "out.mid" Sample.env_of_short_composer
              (Sample.given_with 2 (__noise_sampler Sample.short_composer)))
    as (n & e' & Hrun & _).
  - reflexivity.
  - cbn. lia.
  - cbn. lia.
  - reflexivity.
  - exists e'. exact Hrun.
Defined.

Lemma compose_with_unsampled_velocity_raises_witness :
  exists e',
    compose "out.mid" None None (Sample.composer, Sample.env_of_composer)
      = (Raise (ValueError "cannot convert float NaN to integer"),
         (Sample.composer, e')).
Proof.
  destruct (compose_with_unsampled_velocity_raises Sample.composer None None
              "out.mid" Sample.env_of_composer
              (Sample.given_with 2 (__noise_sampler Sample.composer)))
    as (n & e' & Hrun & _).
  - reflexivity.
  - cbn. lia.
  - exact bars_has_a_one.
  - reflexivity.
  - exists e'. exact Hrun.
Defined.

Lemma saved_rows_come_from_notes_witness :
  exists note_df,
    compose_save "out.mid" [Note 0 0 1 60 70; Note 0 1 2 60 71]
      Sample.empty_env
    = (Ok tt, Env ∅ 0 [EvSave "out.mid" note_df]) /\
    length note_df <= 2.
Proof.
  destruct (saved_rows_come_from_notes "out.mid"
              [Note 0 0 1 60 70; Note 0 1 2 60 71] Sample.empty_env)
    as (note_df & Hrun & _ & Hlen).
  - cbn. lia.
  - exists note_df. split; [exact Hrun | cbn in Hlen; lia].
Defined.

Lemma saved_rows_end_no_earlier_witness :
  exists note_df,
    compose_save "out.mid" [Note 0 0 1 60 70; Note 0 1 2 60 71]
      Sample.empty_env
    = (Ok tt, Env ∅ 0 [EvSave "out.mid" note_df]) /\
    forall r, In r note_df -> (0 <= end_ (r_note r))%Q.
Proof.
  destruct (saved_rows_end_no_earlier "out.mid"
              [Note 0 0 1 60 70; Note 0 1 2 60 71] Sample.empty_env)
    as (note_df & Hrun & Hends).
  - cbn. lia.
  - repeat constructor; cbn; unfold Qle; cbn; lia.
  - exists note_df. split; [exact Hrun|].
    intros r Hr. destruct (Hends r Hr) as (n & Hn & _ & Hle).
    cbn in Hn. destruct Hn as [<-|[<-|[]]]; cbn in Hle; lra.
Defined.

Lemma saved_rows_of_a_pitch_end_apart_witness :
  exists note_df,
    compose_save "out.mid" [Note 0 0 1 60 70; Note 0 0 1 60 71]
      Sample.empty_env
    = (Ok tt, Env ∅ 0 [EvSave "out.mid" note_df]) /\
    ForallOrdPairs apart note_df.
Proof.
  destruct (saved_rows_of_a_pitch_end_apart "out.mid"
              [Note 0 0 1 60 70; Note 0 0 1 60 71] Sample.empty_env)
    as (note_df & Hrun & Hapart).
  - cbn. lia.
  - exists note_df. split; [exact Hrun | exact Hapart].
Defined.

Lemma notes_of_different_pitches_are_saved_as_they_are_witness :
  exists note_df,
    compose_save "out.mid" [Note 0 1 2 62 70; Note 0 0 1 60 71]
      Sample.empty_env
    = (Ok tt, Env ∅ 0 [EvSave "out.mid" note_df]) /\
    length note_df = 2.
Proof.
  destruct (notes_of_different_pitches_are_saved_as_they_are "out.mid"
              [Note 0 1 2 62 70; Note 0 0 1 60 71] Sample.empty_env)
    as (note_df & Hrun & Hperm & _).
  - cbn. lia.
  - repeat constructor; cbn; intros H;
      repeat (destruct H as [H|H]; [discriminate H|]); exact H.
  - exists note_df. split; [exact Hrun|].
    rewrite (Permutation_length Hperm). reflexivity.
Defined.

Lemma adjacent_notes_are_saved_as_one_witness :
  compose_save "out.mid" [Note 0 0 1 60 70; Note 0 1 2 60 71]
    Sample.empty_env
  = (Ok tt,
     Env ∅ 0
       [EvSave "out.mid"
          [{| r_note := Note 0 0 2 60 70;
              next_start := Some 1%Q; next_end := Some 2%Q |}]]).
Proof.
  apply (adjacent_notes_are_saved_as_one "out.mid" (Note 0 0 1 60 70)
           (Note 0 1 2 60 71) Sample.empty_env).
  - reflexivity.
  - reflexivity.
  - reflexivity.
Defined.

Lemma init_with_a_given_noise_sampler_has_no_channel_witness :
  exists self e' d,
    __init__ [] 10 4 1 24 108 (1 # 100000) None None
      (Some (GivenNoiseSampler 1 [0%Z])) None None None Sample.empty_env
    = (Ok self, e') /\
    __discriminative_model self = SeqCNNModel d /\
    og_hidden_dim (cnn_output_graph d) = 0%Z.
Proof.
  destruct (__init__ [] 10 4 1 24 108 (1 # 100000) None None
              (Some (GivenNoiseSampler 1 [0%Z])) None None None
              Sample.empty_env) as [[self|ex] e'] eqn:Hinit;
    [|vm_compute in Hinit; discriminate Hinit].
  destruct (init_with_a_given_noise_sampler_has_no_channel [] 10 4 1 24 108
              (1 # 100000) None None None None (GivenNoiseSampler 1 [0%Z])
              None Sample.empty_env e' self Hinit)
    as (_ & _ & _ & Hd).
  destruct (Hd eq_refl) as (d & Hdisc & _ & Hdim).
  exists self, e', d. repeat split; assumption.
Defined.

Lemma compose_after_learn_draws_from_the_trained_model_witness :
  exists self' e1,
    learn 500 10 (Sample.composer, Sample.env_of_composer)
      = (Ok tt, (self', e1)) /\
    draws (trace (snd (snd (compose "out.mid" None None (self', e1)))))
      = [EvDraw 7%positive].
Proof.
  destruct (compose_after_learn_draws_from_the_trained_model 500 10 "out.mid"
              None None Sample.composer Sample.env_of_composer
              (Sample.given_with 2 (__noise_sampler Sample.composer)))
    as (self' & e1 & Hlearn & _ & Hdraws).
  - reflexivity.
  - exists self', e1. split; [exact Hlearn | exact Hdraws].
Defined.

End MoreOnTheSample.

Section OnSilence.
#[local] Existing Instance Silent.framework.

Lemma rest_has_no_one : ~ has_a_one Silent.rest.
Proof.
  intros (b & k & s & p & Hb & Hk & Hs & Hp & Hq). cbn in Hb, Hk, Hs, Hp.
  assert (b = 0) by lia. assert (k = 0) by lia. assert (s = 0) by lia.
  subst. destruct p as [|[|p]]; [| |lia]; cbn in Hq;
    unfold Qeq in Hq; cbn in Hq; discriminate Hq.
Qed.

Lemma compose_without_ones_raises_witness :
  exists e',
    compose "out.mid" None None (Sample.composer, Silent.env_with_model)
      = (Raise (ValueError "No objects to concatenate"),
         (Sample.composer, e')) /\
    trace e' = [EvDraw 7%positive].
Proof.
  destruct (compose_without_ones_raises Sample.composer None None "out.mid"
              Silent.env_with_model (Sample.given 1))
    as (e' & Hrun & _ & Htrace).
  - reflexivity.
  - cbn. lia.
  - exact rest_has_no_one.
  - exists e'. split; [exact Hrun | exact Htrace].
Defined.

End OnSilence.

Import Demo DemoFacts.

(* ===================================================================== *)
(** ** More on the demonstration script: the names it needs *)
(* ===================================================================== *)

Lemma bound_app (a b : scope) (x : string) :
  bound (a ++ b) x = bound a x || bound b x.
Proof. unfold bound. apply existsb_app. Qed.

Lemma lookup_all_returns (sc : scope) (xs : list string) :
  lookup_all sc xs = Ok tt <-> Forall (fun x => bound sc x = true) xs.
Proof.
  induction xs as [|x xs IH]; cbn.
  - split; [constructor | reflexivity].
  - destruct (bound sc x) eqn:Hb.
    + rewrite IH. split; [intros H; constructor; assumption|].
      intros H. inversion H; assumption.
    + split; [discriminate|]. intros H. inversion H; congruence.
Qed.

Lemma lookup_all_outcome (sc : scope) (xs : list string) :
  lookup_all sc xs = Ok tt \/ exists x, lookup_all sc xs = Raise (NameError x).
Proof.
  induction xs as [|x xs IH]; cbn; [left; reflexivity|].
  destruct (bound sc x); [exact IH | right; eexists; reflexivity].
Qed.

(** A statement either finds all the names it looks up and binds its own,
    or raises [NameError] and binds nothing. *)
Lemma exec_outcome (s : stmt) (sc : scope) :
  (Forall (fun x => bound sc x = true) (loads_of s) /\
   exec s sc = (Ok tt, binds_of s ++ sc)) \/
  (~ Forall (fun x => bound sc x = true) (loads_of s) /\
   exists x, exec s sc = (Raise (NameError x), sc)).
Proof.
  destruct s as [m n|m n|m|targets value|value]; cbn;
    try (left; split; [constructor | reflexivity]).
  - unfold bind, get, lift, modify.
    destruct (lookup_all_outcome sc (loads value)) as [Hok|[x Hx]].
    + left. rewrite Hok. split; [apply lookup_all_returns, Hok | reflexivity].
    + right. rewrite Hx. split; [|eexists; reflexivity].
      intros H. apply lookup_all_returns in H. congruence.
  - unfold bind, get, lift.
    destruct (lookup_all_outcome sc (loads value)) as [Hok|[x Hx]].
    + left. rewrite Hok. split; [apply lookup_all_returns, Hok | reflexivity].
    + right. rewrite Hx. split; [|eexists; reflexivity].
      intros H. apply lookup_all_returns in H. congruence.
Qed.

(** A block runs to its last line exactly when the names it needs from
    outside are bound at its first line; it then has bound its own names on
    top of them. *)
Lemma run_completes (block : list (nat * stmt)) :
  forall sc,
    (fst (run block sc) = None <->
     Forall (fun x => bound sc x = true) (free_names block)) /\
    (fst (run block sc) = None -> snd (run block sc) = bound_by block ++ sc).
Proof.
  induction block as [|[line s] block IH]; intros sc; cbn [run free_names bound_by].
  - cbn. split; [split; [constructor | reflexivity] | reflexivity].
  - destruct (exec_outcome s sc) as [[Hl Hx]|[Hl [x Hx]]]; rewrite Hx.
    + destruct (IH (binds_of s ++ sc)) as [Hiff Hsc]. split.
      * rewrite Hiff, Forall_app, !List.Forall_forall. split.
        -- intros H. split; [rewrite <- List.Forall_forall; exact Hl|].
           intros y Hy. apply filter_In in Hy. destruct Hy as [Hy Hnb].
           apply H in Hy. rewrite bound_app in Hy.
           apply negb_true_iff in Hnb. rewrite Hnb in Hy. exact Hy.
        -- intros [_ H] y Hy. rewrite bound_app.
           destruct (bound (binds_of s) y) eqn:Hb; [reflexivity|].
           apply H, filter_In. split; [exact Hy | rewrite Hb; reflexivity].
      * intros H. rewrite (Hsc H), app_assoc. reflexivity.
    + cbn. split; [|discriminate]. split; [discriminate|].
      intros H. apply Forall_app in H. destruct H as [H _]. contradiction.
Qed.

Lemma run_app (a b : list (nat * stmt)) (sc : scope) :
  fst (run a sc) = None -> run (a ++ b) sc = run b (snd (run a sc)).
Proof.
  revert sc. induction a as [|[line s] a IH]; intros sc; cbn [run app].
  - reflexivity.
  - destruct (exec s sc) as [[[]|ex] sc']; [apply IH | discriminate].
Qed.

(** X14.  From any starting scope that has the builtins [len] and [print],
    the script runs to its last line when [NeuralNetwork] is bound, and
    otherwise stops at line 36 with [NameError] for it: it is the one name
    the script needs and does not import. *)
Theorem demo_needs_NeuralNetwork_and_nothing_else (sc : scope) :
  bound sc "len" = true -> bound sc "print" = true ->
  (bound sc "NeuralNetwork" = true -> fst (run main_block sc) = None) /\
  (bound sc "NeuralNetwork" = false ->
   fst (run main_block sc) = Some (36, NameError "NeuralNetwork")).
Proof.
  intros Hlen Hprint. split.
  - intros Hnn. apply run_completes.
    set (needed := free_names main_block). vm_compute in needed. subst needed.
    repeat constructor; assumption.
  - intros Hnn. unfold main_block. rewrite app_assoc.
    assert (Hpre : fst (run (imports ++ prepare) sc) = None).
    { apply run_completes.
      set (needed := free_names (imports ++ prepare)).
      vm_compute in needed. subst needed. constructor. }
    rewrite (run_app _ _ _ Hpre).
    rewrite (proj2 (run_completes (imports ++ prepare) sc) Hpre).
    set (names := bound_by (imports ++ prepare)). vm_compute in names.
    unfold networks. cbn [app run exec].
    unfold bind, get, lift. cbn [loads app lookup_all].
    rewrite bound_app, Hnn. subst names. reflexivity.
Qed.

Lemma demo_needs_NeuralNetwork_and_nothing_else_witness :
  fst (run main_block ("NeuralNetwork" :: builtins)) = None /\
  fst (run main_block builtins) = Some (36, NameError "NeuralNetwork").
Proof.
  split.
  - apply (demo_needs_NeuralNetwork_and_nothing_else
             ("NeuralNetwork" :: builtins)); reflexivity.
  - apply (demo_needs_NeuralNetwork_and_nothing_else builtins); reflexivity.
Defined.
